(** * preprocess_bgs_pdf.py: chunking, entity tagging and the IDF index

    A shallow embedding of [scripts/preprocess_bgs_pdf.py] and the
    properties its specification states about it.

    Modelling conventions.
    - A Python [str] is a list of characters; characters are the code
      points 0..255 ([ascii]), with Python's classification of them
      ([str.isspace], [\d], [\w], [str.lower]) written out for that range.
    - Python integers that index a string are [nat]; the only subtraction
      of the program ([end - OVERLAP]) is shown never to truncate.
    - The [while] loop of [chunk] is a fuelled function into [option]:
      [None] means that the fuel ran out, and termination is a theorem.
    - [re.search], [re.findall] and [re.sub] are a small backtracking
      matcher (leftmost match, alternatives in order, greedy repetition).
    - Iterating a Python [set] of strings yields its elements in an order
      that depends on the hash seed of the process: a run is parameterised
      by a [SetOrder], the enumeration order of that run.
    - A Python [dict] is an association list in insertion order.
    - [math.log] and float division are the real-valued [ln] and [/]. *)

From Stdlib Require Import Ascii String DecimalString Reals Lra.
From stdpp Require Import base tactics option list numbers strings sorting.

Local Open Scope nat_scope.

(** ** Strings and character classes *)

Definition str : Type := list ascii.

Definition lit (s : string) : str := list_ascii_of_string s.

Definition code (c : ascii) : nat := nat_of_ascii c.

Definition in_range (lo hi : nat) (c : ascii) : bool :=
  (lo <=? code c) && (code c <=? hi).

(** [a-z], [A-Z], [0-9] (and [\d], which on code points below 256 is
    [0-9]). *)
Definition is_lower (c : ascii) : bool := in_range 97 122 c.
Definition is_upper (c : ascii) : bool := in_range 65 90 c.
Definition is_digit (c : ascii) : bool := in_range 48 57 c.

(** [\s], [str.isspace], the separators of [str.split()] and the
    characters removed by [str.strip()]: TAB..CR, FS..US, space, NEL and
    the no-break space. *)
Definition is_space (c : ascii) : bool :=
  in_range 9 13 c || in_range 28 32 c || (code c =? 133) || (code c =? 160).

(** [\w]: alphanumeric characters and the underscore. *)
Definition is_word (c : ascii) : bool :=
  is_digit c || is_upper c || is_lower c || (code c =? 95)
  || (code c =? 170) || (code c =? 178) || (code c =? 179)
  || (code c =? 181) || (code c =? 185) || (code c =? 186)
  || in_range 188 190 c || in_range 192 214 c || in_range 216 246 c
  || in_range 248 255 c.

Definition chr_eqb (a b : ascii) : bool := Ascii.eqb a b.

(** [str.lower()], one character at a time: the capitals [A-Z] and the
    accented capitals 192..222 (but the multiplication sign 215) move up
    by 32. *)
Definition lower_chr (c : ascii) : ascii :=
  if is_upper c || (in_range 192 222 c && negb (code c =? 215))
  then ascii_of_nat (code c + 32) else c.

Definition lower (s : str) : str := map lower_chr s.

(** [s[a:b]] for 0 <= a, b. *)
Definition slice (s : str) (a b : nat) : str := take (b - a) (drop a s).

(** [s or ""], for a value that is a string or [None]. *)
Definition or_empty (s : option str) : str := default [] s.

(** ** Regular expressions

    The fragment of [re] the program uses: literals, character classes,
    sequence, ordered alternative, greedy bounded repetition of a class
    and the word boundary [\b]. *)

Inductive re : Type :=
  | Lit (s : str)
  | Cls (p : ascii → bool)
  | Seq (r1 r2 : re)
  | Alt (r1 r2 : re)
  | Rep (p : ascii → bool) (lo : nat) (hi : option nat)
  | WordB.

(** A continuation receives the last character consumed so far (if any)
    and the rest of the subject, and returns how many more characters the
    rest of the pattern consumes. *)
Definition cont : Type := option ascii → str → option nat.

Definition hi_allows (hi : option nat) : bool :=
  match hi with Some 0 => false | _ => true end.

Definition hi_pred (hi : option nat) : option nat := Nat.pred <$> hi.

(** Greedy repetition: take one more character of the class when allowed,
    and fall back to stopping here when the rest then fails. *)
Fixpoint rep_match (p : ascii → bool) (lo : nat) (hi : option nat)
    (prev : option ascii) (s : str) (k : cont) : option nat :=
  let stop := if lo =? 0 then k prev s else None in
  match s with
  | c :: s' =>
      if p c && hi_allows hi then
        match S <$> rep_match p (Nat.pred lo) (hi_pred hi) (Some c) s' k with
        | Some n => Some n
        | None => stop
        end
      else stop
  | [] => stop
  end.

Fixpoint lit_match (l : str) (prev : option ascii) (s : str) (k : cont)
    : option nat :=
  match l with
  | [] => k prev s
  | a :: l' =>
      match s with
      | c :: s' => if chr_eqb a c then S <$> lit_match l' (Some c) s' k else None
      | [] => None
      end
  end.

Definition at_word_boundary (prev : option ascii) (s : str) : bool :=
  xorb (from_option is_word false prev) (from_option is_word false (head s)).

Fixpoint re_match (r : re) (prev : option ascii) (s : str) (k : cont)
    : option nat :=
  match r with
  | Lit l => lit_match l prev s k
  | Cls p =>
      match s with
      | c :: s' => if p c then S <$> k (Some c) s' else None
      | [] => None
      end
  | Seq r1 r2 => re_match r1 prev s (λ prev' s', re_match r2 prev' s' k)
  | Alt r1 r2 =>
      match re_match r1 prev s k with
      | Some n => Some n
      | None => re_match r2 prev s k
      end
  | Rep p lo hi => rep_match p lo hi prev s k
  | WordB => if at_word_boundary prev s then k prev s else None
  end.

Definition accept : cont := λ _ _, Some 0.

(** The length of the match of [r] that starts right here, if any. *)
Definition match_here (r : re) (prev : option ascii) (s : str) : option nat :=
  re_match r prev s accept.

(** [re.search(r, s)]: the leftmost match, as [(m.start(), m.end())]. *)
Fixpoint search_from (r : re) (prev : option ascii) (s : str) (pos : nat)
    : option (nat * nat) :=
  match match_here r prev s with
  | Some n => Some (pos, pos + n)
  | None =>
      match s with
      | c :: s' => search_from r (Some c) s' (S pos)
      | [] => None
      end
  end.

Definition re_search (r : re) (s : str) : option (nat * nat) :=
  search_from r None s 0.

(** [re.findall(r, s)] for a pattern whose result is the whole match: the
    non-overlapping matches, left to right; after an empty match the scan
    moves on by one character. The fuel bounds the number of scan steps,
    [length s + 1] of them are enough. *)
Fixpoint findall_from (fuel : nat) (r : re) (prev : option ascii) (s : str)
    : list str :=
  match fuel with
  | 0 => []
  | S fuel' =>
      match match_here r prev s with
      | Some (S n) =>
          take (S n) s ::
          findall_from fuel' r (s !! n) (drop (S n) s)
      | Some 0 =>
          [] :: match s with
                | c :: s' => findall_from fuel' r (Some c) s'
                | [] => []
                end
      | None =>
          match s with
          | c :: s' => findall_from fuel' r (Some c) s'
          | [] => []
          end
      end
  end.

Definition re_findall (r : re) (s : str) : list str :=
  findall_from (S (length s)) r None s.

(** [re.sub(r, repl, s)]: every non-overlapping match is replaced by
    [repl], the characters between matches are kept. *)
Fixpoint sub_from (fuel : nat) (r : re) (repl : str) (prev : option ascii)
    (s : str) : str :=
  match fuel with
  | 0 => s
  | S fuel' =>
      match match_here r prev s with
      | Some (S n) =>
          repl ++ sub_from fuel' r repl (s !! n) (drop (S n) s)
      | Some 0 =>
          repl ++ match s with
                  | c :: s' => c :: sub_from fuel' r repl (Some c) s'
                  | [] => []
                  end
      | None =>
          match s with
          | c :: s' => c :: sub_from fuel' r repl (Some c) s'
          | [] => []
          end
      end
  end.

Definition re_sub (r : re) (repl : str) (s : str) : str :=
  sub_from (S (length s)) r repl None s.

Declare Scope re_scope.
Delimit Scope re_scope with re.
Bind Scope re_scope with re.
Infix ">>>" := Seq (at level 60, right associativity) : re_scope.
Infix "<|>" := Alt (at level 65, right associativity) : re_scope.

(** [[...]] with the listed characters. *)
Definition one_of (cs : string) (c : ascii) : bool :=
  existsb (chr_eqb c) (lit cs).

(** ** The program's constants *)

Definition CHUNK_SIZE : nat := 900.
Definition OVERLAP : nat := 150.

(** [LTT[- ]?\d{4,5}|[A-Z][a-z]+ Sector [A-Z0-9\- ]+|[A-Z][A-Za-z0-9\- ]{2,}] *)
Definition SYSTEM_PAT : re :=
  (Lit (lit "LTT") >>> Rep (one_of "- ") 0 (Some 1) >>> Rep is_digit 4 (Some 5)
   <|> Cls is_upper >>> Rep is_lower 1 None >>> Lit (lit " Sector ")
       >>> Rep (λ c, is_upper c || is_digit c || one_of "- " c) 1 None
   <|> Cls is_upper
       >>> Rep (λ c, is_upper c || is_lower c || is_digit c || one_of "- " c)
             2 None)%re.

(** [Black Sun Crew|Space Force|Oblivion Fleet|Jerome Archer|Alliance|Empire|Federation] *)
Definition FACTION_PAT : re :=
  (Lit (lit "Black Sun Crew") <|> Lit (lit "Space Force")
   <|> Lit (lit "Oblivion Fleet") <|> Lit (lit "Jerome Archer")
   <|> Lit (lit "Alliance") <|> Lit (lit "Empire")
   <|> Lit (lit "Federation"))%re.

(** [\b(20\d{2}-\d{2}-\d{2}|[A-Z][a-z]{2,9}\s+\d{1,2},\s+20\d{2})\b].
    The only group spans everything between the two boundaries, so what
    [re.findall] returns for it is the text of the whole match. *)
Definition DATE_PAT : re :=
  (WordB
   >>> (Lit (lit "20") >>> Rep is_digit 2 (Some 2) >>> Lit (lit "-")
        >>> Rep is_digit 2 (Some 2) >>> Lit (lit "-")
        >>> Rep is_digit 2 (Some 2)
        <|> Cls is_upper >>> Rep is_lower 2 (Some 9) >>> Rep is_space 1 None
            >>> Rep is_digit 1 (Some 2) >>> Lit (lit ",")
            >>> Rep is_space 1 None >>> Lit (lit "20")
            >>> Rep is_digit 2 (Some 2))
   >>> WordB)%re.

(** [\s+], [[^a-z0-9\s\-]] and [[\.!\?]\s]. *)
Definition WS_RUN : re := Rep is_space 1 None.

Definition tok_chr (c : ascii) : bool :=
  is_lower c || is_digit c || is_space c || one_of "-" c.

Definition NOT_TOK_CHR : re := Cls (λ c, negb (tok_chr c)).

Definition SENTENCE_END : re := (Cls (one_of ".!?") >>> Cls is_space)%re.

(** ** [clean] and [toks] *)

Fixpoint lstrip (s : str) : str :=
  match s with
  | c :: s' => if is_space c then lstrip s' else s
  | [] => []
  end.

(** [s.strip()] *)
Definition strip (s : str) : str := reverse (lstrip (reverse (lstrip s))).

(** [s.split()]: the maximal runs of characters that are not whitespace;
    [cur] is the run being read. *)
Fixpoint split_from (cur : str) (s : str) : list str :=
  match s with
  | [] => match cur with [] => [] | _ => [cur] end
  | c :: s' =>
      if is_space c
      then match cur with
           | [] => split_from [] s'
           | _ => cur :: split_from [] s'
           end
      else split_from (cur ++ [c]) s'
  end.

Definition split (s : str) : list str := split_from [] s.

Definition clean (s : option str) : str :=
  strip (re_sub WS_RUN (lit " ") (or_empty s)).

Definition toks (s : option str) : list str :=
  let s := re_sub NOT_TOK_CHR (lit " ") (lower (or_empty s)) in
  filter (λ t, 2 < length t) (split s).

(** ** [chunk] *)

Record Window : Type := { w_page : nat; w_text : str }.

(** The end of the window that starts at [i]: the raw cutoff, moved past
    the first sentence end found in the 120 characters behind it. *)
Definition window_end (text : str) (i : nat) : nat :=
  let end_ := (i + CHUNK_SIZE) `min` length text in
  let ext := slice text end_ (end_ + 120) in
  match re_search SENTENCE_END ext with
  | Some (_, m_end) => end_ + m_end
  | None => end_
  end.

(** The [while] loop, one iteration per unit of fuel. *)
Fixpoint chunk_loop (fuel : nat) (text : str) (page i : nat)
    (out : list Window) : option (list Window) :=
  match fuel with
  | 0 => None
  | S fuel' =>
      if decide (i < length text) then
        let end_ := window_end text i in
        let out := out ++ [{| w_page := page; w_text := slice text i end_ |}] in
        if decide (length text ≤ end_) then Some out
        else chunk_loop fuel' text page (end_ - OVERLAP) out
      else Some out
  end.

Definition chunk (text : option str) (page : nat) : option (list Window) :=
  let text := clean text in
  chunk_loop (S (length text)) text page 0 [].

(** The same loop, recording the positions [(i, end)] of each window
    instead of its text: the window of this iteration, then those of the
    iterations that follow. *)
Fixpoint spans_from (fuel : nat) (text : str) (i : nat)
    : option (list (nat * nat)) :=
  match fuel with
  | 0 => None
  | S fuel' =>
      if decide (i < length text) then
        let end_ := window_end text i in
        if decide (length text ≤ end_) then Some [(i, end_)]
        else ((i, end_) ::.) <$> spans_from fuel' text (end_ - OVERLAP)
      else Some []
  end.

Definition chunk_spans (text : str) : option (list (nat * nat)) :=
  spans_from (S (length text)) text 0.

Definition window_of (text : str) (page : nat) (sp : nat * nat) : Window :=
  {| w_page := page; w_text := slice text sp.1 sp.2 |}.

(** ** Sets and dictionaries of the Python runtime *)

(** [list(set(l))] and [for w in set(l)]: the distinct elements of [l], in
    the order the set's hash table yields them. The order is fixed within
    one process and differs between processes (string hashes are salted
    with a per-process seed). *)
Record SetOrder : Type := {
  set_list : list str → list str;
  set_list_perm : ∀ l, set_list l ≡ₚ remove_dups l
}.

(** Two orders a run can exhibit. *)
Program Definition order_fwd : SetOrder :=
  {| set_list := remove_dups |}.
Next Obligation. done. Qed.

Program Definition order_rev : SetOrder :=
  {| set_list l := reverse (remove_dups l) |}.
Next Obligation. intros l. apply reverse_Permutation. Qed.

(** A [dict] with string keys, in insertion order. *)
Definition dict (V : Type) : Type := list (str * V).

Fixpoint dict_get {V} (d : dict V) (k : str) : option V :=
  match d with
  | [] => None
  | (k', v) :: d' => if decide (k' = k) then Some v else dict_get d' k
  end.

(** [d[k] = v]: a present key keeps its place, a new key goes last. *)
Fixpoint dict_set {V} (k : str) (v : V) (d : dict V) : dict V :=
  match d with
  | [] => [(k, v)]
  | (k', v') :: d' =>
      if decide (k' = k) then (k, v) :: d' else (k', v') :: dict_set k v d'
  end.

Definition dict_keys {V} (d : dict V) : list str := d.*1.

(** ** [main] *)

Record Chunk : Type := {
  c_id : nat;
  c_page : nat;
  c_systems : list str;
  c_factions : list str;
  c_dates : list str;
  c_text : str
}.

Record Index : Type := { idf : dict R; N : nat }.

(** The record built for window [c] when [n] chunks exist already. *)
Definition tag (o : SetOrder) (n : nat) (c : Window) : Chunk :=
  let t := w_text c in
  let systems := set_list o (re_findall SYSTEM_PAT t) in
  let factions := set_list o (re_findall FACTION_PAT t) in
  let dates := set_list o (re_findall DATE_PAT t) in
  {| c_id := n; c_page := w_page c;
     c_systems := systems; c_factions := factions;
     c_dates := dates; c_text := t |}.

(** The body of the inner [for] loop: tag the window and append it. *)
Definition add_chunk (o : SetOrder) (chunks : list Chunk) (c : Window)
    : list Chunk :=
  chunks ++ [tag o (length chunks) c].

(** The outer [for] loop from page index [p] on; a page is the value of
    its [extract_text()], a string or [None]. *)
Fixpoint read_pages (o : SetOrder) (pages : list (option str)) (p : nat)
    (chunks : list Chunk) : option (list Chunk) :=
  match pages with
  | [] => Some chunks
  | pg :: pages' =>
      let raw := or_empty pg in
      cs ← chunk (Some raw) (p + 1);
      read_pages o pages' (S p) (foldl (add_chunk o) chunks cs)
  end.

(** [df[w] = df.get(w,0)+1] *)
Definition df_incr (df : dict nat) (w : str) : dict nat :=
  dict_set w (default 0 (dict_get df w) + 1) df.

(** The body of the indexing loop. The list [docs] the program also fills
    is never read and is left out. *)
Definition df_add (o : SetOrder) (df : dict nat) (c : Chunk) : dict nat :=
  foldl df_incr df (set_list o (toks (Some (c_text c)))).

Definition build_df (o : SetOrder) (chunks : list Chunk) : dict nat :=
  foldl (df_add o) [] chunks.

(** [math.log((N+1)/(df[w]+1))+1.0] *)
Definition idf_weight (n d : nat) : R :=
  (ln ((INR n + 1) / (INR d + 1)) + 1)%R.

Definition build_idf (n : nat) (df : dict nat) : dict R :=
  map (λ wd, (wd.1, idf_weight n wd.2)) df.

(** What [main] hands to the two [json.dump] calls. *)
Definition main (o : SetOrder) (pages : list (option str))
    : option (list Chunk * Index) :=
  chunks ← read_pages o pages 0 [];
  let df := build_df o chunks in
  let n := length chunks in
  Some (chunks, {| idf := build_idf n df; N := n |}).

(** ** The chunk store: [json.dump(chunks, f, ensure_ascii=False)] into a
    UTF-8 file *)

Definition dquote : ascii := ascii_of_nat 34.
Definition backslash : ascii := ascii_of_nat 92.

Definition hex_digit (n : nat) : ascii :=
  nth n (lit "0123456789abcdef") "0"%char.

(** The encoder's escape table: quote, backslash, the short escapes and
    [\u00XX] for the other control characters. *)
Definition json_escape (c : ascii) : str :=
  let n := code c in
  if n =? 34 then [backslash; dquote]
  else if n =? 92 then [backslash; backslash]
  else if n =? 8 then backslash :: lit "b"
  else if n =? 12 then backslash :: lit "f"
  else if n =? 10 then backslash :: lit "n"
  else if n =? 13 then backslash :: lit "r"
  else if n =? 9 then backslash :: lit "t"
  else if n <? 32 then
    backslash :: lit "u00" ++ [hex_digit (n / 16); hex_digit (n mod 16)]
  else [c].

Definition json_string (s : str) : str :=
  dquote :: concat (map json_escape s) ++ [dquote].

Definition json_int (n : nat) : str :=
  lit (NilEmpty.string_of_uint (Nat.to_uint n)).

Fixpoint join (sep : str) (items : list str) : str :=
  match items with
  | [] => []
  | [x] => x
  | x :: items' => x ++ sep ++ join sep items'
  end.

Definition json_array (items : list str) : str :=
  lit "[" ++ join (lit ", ") items ++ lit "]".

Definition json_member (key : string) (value : str) : str :=
  json_string (lit key) ++ lit ": " ++ value.

Definition json_chunk (c : Chunk) : str :=
  lit "{" ++
  join (lit ", ")
    [json_member "id" (json_int (c_id c));
     json_member "page" (json_int (c_page c));
     json_member "systems" (json_array (map json_string (c_systems c)));
     json_member "factions" (json_array (map json_string (c_factions c)));
     json_member "dates" (json_array (map json_string (c_dates c)));
     json_member "text" (json_string (c_text c))] ++
  lit "}".

Definition json_chunks (chunks : list Chunk) : str :=
  json_array (map json_chunk chunks).

(** UTF-8 of a code point below 256: one byte below 128, else two. *)
Definition utf8_chr (c : ascii) : list nat :=
  let n := code c in
  if n <? 128 then [n] else [192 + n / 64; 128 + n mod 64].

Definition utf8 (s : str) : list nat := concat (map utf8_chr s).

(** The bytes of [data/bgs_chunks.json] after a run. *)
Definition chunk_store (chunks : list Chunk) : list nat :=
  utf8 (json_chunks chunks).

(** The bytes of the chunk store a run leaves behind. *)
Definition run_chunk_store (o : SetOrder) (pages : list (option str))
    : option (list nat) :=
  r ← main o pages; Some (chunk_store r.1).

(** ** Notions the properties are stated with *)

(** The page text of the specification's tagging scenario. *)
Definition scenario_text : str :=
  lit "Sector Alpha was claimed by the Alliance on 2024-03-01. Expansion continued.".

(** The windows of all pages from page index [p] on, in page order. *)
Fixpoint page_windows (pages : list (option str)) (p : nat)
    : option (list Window) :=
  match pages with
  | [] => Some []
  | pg :: pages' =>
      ws ← chunk (Some (or_empty pg)) (p + 1);
      wss ← page_windows pages' (S p);
      Some (ws ++ wss)
  end.

(** The index [main] builds for a list of chunks. *)
Definition index_of (o : SetOrder) (chunks : list Chunk) : Index :=
  {| idf := build_idf (length chunks) (build_df o chunks);
     N := length chunks |}.

(** The entry of the frequency table for a token that [n] chunks
    contain: none at all when no chunk does. *)
Definition freq_entry (n : nat) : option nat :=
  if decide (n = 0) then None else Some n.

(** A window with its page number moved up by one. *)
Definition w_next (w : Window) : Window :=
  {| w_page := S (w_page w); w_text := w_text w |}.

(** A chunk record with its page number moved up by one. *)
Definition next_page (c : Chunk) : Chunk :=
  {| c_id := c_id c; c_page := S (c_page c);
     c_systems := c_systems c; c_factions := c_factions c;
     c_dates := c_dates c; c_text := c_text c |}.

(** The number of chunks whose token set contains [w]. *)
Definition doc_freq (chunks : list Chunk) (w : str) : nat :=
  length (filter (λ c, w ∈ toks (Some (c_text c))) chunks).

(** Window texts put back together: the first one whole, every later one
    without the [OVERLAP] characters it repeats. *)
Definition reassemble (ws : list Window) : str :=
  match ws with
  | [] => []
  | w :: ws' => w_text w ++ concat (map (λ w', drop OVERLAP (w_text w')) ws')
  end.

(** Two chunk records that agree up to the order of their entity lists. *)
Definition chunk_equiv (c1 c2 : Chunk) : Prop :=
  c_id c1 = c_id c2 ∧ c_page c1 = c_page c2 ∧ c_text c1 = c_text c2 ∧
  c_systems c1 ≡ₚ c_systems c2 ∧ c_factions c1 ≡ₚ c_factions c2 ∧
  c_dates c1 ≡ₚ c_dates c2.

(** The description of tokenization in words: blank out what is not a
    lowercase letter, a digit, whitespace or a hyphen. *)
Definition blank_non_token (c : ascii) : ascii :=
  if is_lower c || is_digit c || is_space c || chr_eqb c "-"
  then c else " "%char.


(** The length of the run of whitespace [s] starts with. *)
Fixpoint ws_run (s : str) : nat :=
  match s with
  | c :: s' => if is_space c then S (ws_run s') else 0
  | [] => 0
  end.

(** Whitespace runs squeezed to one space each, read left to right;
    [in_ws] tells that the character before was whitespace. *)
Fixpoint squeeze (in_ws : bool) (s : str) : str :=
  match s with
  | [] => []
  | c :: s' =>
      if is_space c
      then (if in_ws then squeeze true s' else " "%char :: squeeze true s')
      else c :: squeeze false s'
  end.

(** Whitespace removed at the right end only. *)
Definition rstrip (s : str) : str := reverse (lstrip (reverse s)).

(** A word: not empty and free of whitespace. *)
Definition is_word_str (w : str) : Prop :=
  w ≠ [] ∧ Forall (λ c, is_space c = false) w.

(** Every whitespace character of [s] is a space and is not followed by
    whitespace. *)
Fixpoint single_spaced (s : str) : Prop :=
  match s with
  | [] => True
  | c :: s' =>
      (is_space c = true →
       c = " "%char ∧ from_option is_space false (head s') = false) ∧
      single_spaced s'
  end.

(** Position [j] of [text] holds [.], [!] or [?] and the next position
    holds whitespace. *)
Definition sentence_end_at (text : str) (j : nat) : bool :=
  match text !! j, text !! S j with
  | Some c, Some d => one_of ".!?" c && is_space d
  | _, _ => false
  end.

(** The least number of characters a match of [r] has. *)
Fixpoint min_len (r : re) : nat :=
  match r with
  | Lit l => length l
  | Cls _ => 1
  | Seq r1 r2 => min_len r1 + min_len r2
  | Alt r1 r2 => min_len r1 `min` min_len r2
  | Rep _ lo _ => lo
  | WordB => 0
  end.

(** The names [FACTION_PAT] lists. *)
Definition FACTION_NAMES : list str :=
  [lit "Black Sun Crew"; lit "Space Force"; lit "Oblivion Fleet";
   lit "Jerome Archer"; lit "Alliance"; lit "Empire"; lit "Federation"].

(** A chunk record moved behind [dn] earlier chunks and [dp] earlier
    pages. *)
Definition shift_chunk (dn dp : nat) (c : Chunk) : Chunk :=
  {| c_id := dn + c_id c; c_page := dp + c_page c;
     c_systems := c_systems c; c_factions := c_factions c;
     c_dates := c_dates c; c_text := c_text c |}.

Definition w_shift (dp : nat) (w : Window) : Window :=
  {| w_page := dp + w_page w; w_text := w_text w |}.

(** The windows the loop lays out from position [i] on, as a relation:
    either the window at [i] reaches the end of the text and is the last,
    or the loop goes on from [OVERLAP] characters before its end. *)
Inductive windows (text : str) : nat → list (nat * nat) → Prop :=
  | windows_last i :
      i < length text →
      length text ≤ window_end text i →
      windows text i [(i, window_end text i)]
  | windows_more i rest :
      i < length text →
      window_end text i < length text →
      windows text (window_end text i - OVERLAP) rest →
      windows text i ((i, window_end text i) :: rest).

(** A continuation that never claims more characters than are left. *)
Definition cont_bounded (k : cont) : Prop :=
  ∀ prev s n, k prev s = Some n → n ≤ length s.

(** * Properties *)

(** ** The matcher stays inside the subject *)

Lemma accept_bounded : cont_bounded accept.
Proof. intros prev s n [= <-]. lia. Qed.

Lemma rep_match_bounded p lo hi k :
  cont_bounded k → cont_bounded (λ prev s, rep_match p lo hi prev s k).
Proof.
  intros Hk prev s. revert lo hi prev.
  induction s as [|c s IH]; intros lo hi prev n; simpl.
  - destruct (lo =? 0); [apply Hk|done].
  - destruct (p c && hi_allows hi).
    + destruct (rep_match p (Nat.pred lo) (hi_pred hi) (Some c) s k)
        as [m|] eqn:Hm; simpl.
      * intros [= <-]. apply IH in Hm. lia.
      * destruct (lo =? 0); [|done]. intros H%Hk. done.
    + destruct (lo =? 0); [|done]. intros H%Hk. done.
Qed.

Lemma lit_match_bounded l k :
  cont_bounded k → cont_bounded (λ prev s, lit_match l prev s k).
Proof.
  intros Hk. induction l as [|a l IH]; intros prev s n; simpl.
  - apply Hk.
  - destruct s as [|c s]; [done|]. destruct (chr_eqb a c); [|done].
    destruct (lit_match l (Some c) s k) as [m|] eqn:Hm; [|done].
    intros [= <-]. apply IH in Hm. simpl. lia.
Qed.

Lemma re_match_bounded r k :
  cont_bounded k → cont_bounded (λ prev s, re_match r prev s k).
Proof.
  revert k. induction r as [l|p|r1 IH1 r2 IH2|r1 IH1 r2 IH2|p lo hi|];
    intros k Hk; simpl.
  - by apply lit_match_bounded.
  - intros prev [|c s] n; [done|]. destruct (p c); [|done].
    destruct (k (Some c) s) as [m|] eqn:Hm; [|done].
    intros [= <-]. apply Hk in Hm. simpl. lia.
  - apply IH1. by apply IH2.
  - intros prev s n. destruct (re_match r1 prev s k) as [m|] eqn:Hm.
    + intros [= <-]. by eapply (IH1 k Hk).
    + by apply (IH2 k Hk).
  - by apply rep_match_bounded.
  - intros prev s n. destruct (at_word_boundary prev s); [apply Hk|done].
Qed.

Lemma search_from_bounded r prev s pos a b :
  search_from r prev s pos = Some (a, b) → pos ≤ a ∧ a ≤ b ∧ b ≤ pos + length s.
Proof.
  revert prev pos. induction s as [|c s IH]; intros prev pos; simpl.
  - destruct (match_here r prev []) as [n|] eqn:Hn; [|done].
    intros [= <- <-]. apply (re_match_bounded r accept accept_bounded) in Hn.
    simpl in Hn. lia.
  - destruct (match_here r prev (c :: s)) as [n|] eqn:Hn.
    + intros [= <- <-].
      apply (re_match_bounded r accept accept_bounded) in Hn.
      simpl in Hn. lia.
    + intros H%IH. lia.
Qed.

Lemma re_search_bounded r s a b :
  re_search r s = Some (a, b) → a ≤ b ∧ b ≤ length s.
Proof. intros H%search_from_bounded. lia. Qed.

(** ** The window end *)

Lemma length_slice s a b : length (slice s a b) = (b `min` length s) - a.
Proof. unfold slice. rewrite length_take, length_drop. lia. Qed.

Lemma window_end_bounds text i :
  (i + CHUNK_SIZE) `min` length text ≤ window_end text i ∧
  window_end text i ≤ (i + CHUNK_SIZE) `min` length text + 120 ∧
  window_end text i ≤ length text.
Proof.
  unfold window_end.
  set (e := (i + CHUNK_SIZE) `min` length text).
  destruct (re_search SENTENCE_END (slice text e (e + 120)))
    as [[a b]|] eqn:Hs.
  - apply re_search_bounded in Hs. rewrite length_slice in Hs. lia.
  - lia.
Qed.

Lemma window_end_gt text i : i < length text → i < window_end text i.
Proof.
  pose proof (window_end_bounds text i). unfold CHUNK_SIZE in *. lia.
Qed.

(** When the loop goes on, the window was a full one and the next start
    lies at least [CHUNK_SIZE - OVERLAP] further, without truncation. *)
Lemma window_end_continue text i :
  window_end text i < length text →
  i + CHUNK_SIZE ≤ window_end text i ∧
  OVERLAP ≤ window_end text i ∧
  i + 750 ≤ window_end text i - OVERLAP.
Proof.
  pose proof (window_end_bounds text i).
  unfold CHUNK_SIZE, OVERLAP in *. lia.
Qed.

(** ** The loop and its spans *)

Lemma spans_from_windows fuel text i sp :
  i < length text → spans_from fuel text i = Some sp → windows text i sp.
Proof.
  revert i sp. induction fuel as [|fuel IH]; intros i sp Hi; simpl; [done|].
  case_decide; [|lia]. case_decide.
  - intros [= <-]. by constructor.
  - destruct (spans_from fuel text (window_end text i - OVERLAP))
      as [rest|] eqn:Hrest; [|done].
    intros [= <-]. apply windows_more; [done|lia|].
    apply IH; [|done].
    pose proof (window_end_continue text i). lia.
Qed.

(** Enough fuel: one unit per 750 characters left, and one more. *)
Lemma spans_from_fuel fuel text i :
  (length text - i) / 750 < fuel → is_Some (spans_from fuel text i).
Proof.
  revert i. induction fuel as [|fuel IH]; intros i Hf; [lia|]. simpl.
  case_decide; [|done]. case_decide; [done|].
  destruct (IH (window_end text i - OVERLAP)) as [sp ->]; [|done].
  pose proof (window_end_continue text i) as (? & ? & ?); [lia|].
  pose proof (Nat.mul_succ_div_gt (length text - i) 750).
  apply Nat.Div0.div_lt_upper_bound. lia.
Qed.

(** More fuel does not change a result. *)
Lemma spans_from_mono fuel fuel' text i sp :
  fuel ≤ fuel' → spans_from fuel text i = Some sp →
  spans_from fuel' text i = Some sp.
Proof.
  revert fuel' i sp. induction fuel as [|fuel IH]; intros fuel' i sp Hle;
    [done|].
  destruct fuel' as [|fuel']; [lia|]. simpl.
  case_decide; [|done]. case_decide; [done|].
  destruct (spans_from fuel text (window_end text i - OVERLAP))
    as [rest|] eqn:Hrest; [|done].
  intros [= <-]. by rewrite (IH fuel' _ rest) by (done || lia).
Qed.

Lemma chunk_loop_spans fuel text page i out :
  chunk_loop fuel text page i out
  = (λ sp, out ++ map (window_of text page) sp) <$> spans_from fuel text i.
Proof.
  revert i out. induction fuel as [|fuel IH]; intros i out; simpl; [done|].
  case_decide; simpl; [|by rewrite app_nil_r].
  case_decide; simpl; [done|].
  rewrite IH. destruct (spans_from fuel text _) as [rest|]; simpl; [|done].
  by rewrite <-app_assoc.
Qed.

Lemma chunk_spans_total text : is_Some (chunk_spans text).
Proof.
  apply spans_from_fuel.
  assert ((length text - 0) / 750 ≤ length text); [|lia].
  apply Nat.Div0.div_le_upper_bound. lia.
Qed.

Lemma chunk_eq_spans raw page :
  chunk raw page = map (window_of (clean raw) page) <$> chunk_spans (clean raw).
Proof. unfold chunk, chunk_spans. by rewrite chunk_loop_spans. Qed.

Lemma chunk_spans_windows text sp :
  chunk_spans text = Some sp →
  if decide (text = []) then sp = [] else windows text 0 sp.
Proof.
  unfold chunk_spans. case_decide as Ht.
  - subst. simpl. by intros [= <-].
  - apply spans_from_windows. destruct text; simpl; [done|lia].
Qed.

(** ** What the windows of a text look like *)

Lemma windows_head text i sp :
  windows text i sp → ∃ rest, sp = (i, window_end text i) :: rest.
Proof. destruct 1; eauto. Qed.

Lemma windows_span text i sp :
  windows text i sp →
  ∀ k a e, sp !! k = Some (a, e) →
    i ≤ a ∧ a < e ∧ e ≤ length text ∧ e = window_end text a ∧
    (e = length text ↔ S k = length sp).
Proof.
  induction 1 as [i Hi He|i rest Hi He Hw IH]; intros k a e Hk.
  - destruct k as [|k]; [|done]. simplify_eq/=.
    pose proof (window_end_bounds text a).
    pose proof (window_end_gt text a Hi). intuition lia.
  - destruct k as [|k]; simplify_eq/=.
    + pose proof (window_end_gt text a Hi).
      apply windows_head in Hw as [? ->]. simpl. intuition lia.
    + destruct (IH _ _ _ Hk) as (? & ? & ? & ? & ?).
      pose proof (window_end_continue text i He). intuition lia.
Qed.

Lemma windows_consecutive text i sp :
  windows text i sp →
  ∀ k a1 e1 a2 e2,
    sp !! k = Some (a1, e1) → sp !! S k = Some (a2, e2) →
    a2 + OVERLAP = e1 ∧ e1 < length text ∧ a1 + CHUNK_SIZE ≤ e1 ∧ e1 ≤ e2.
Proof.
  induction 1 as [i Hi He|i rest Hi He Hw IH]; intros k a1 e1 a2 e2 H1 H2.
  - by destruct k.
  - destruct k as [|k]; simplify_eq/=; [|by eapply IH].
    pose proof (window_end_continue text a1 He) as (? & ? & ?).
    apply windows_head in Hw as [? ->]. simplify_eq/=.
    pose proof (window_end_bounds text (window_end text a1 - OVERLAP)).
    unfold CHUNK_SIZE, OVERLAP in *. lia.
Qed.

Lemma windows_cover text i sp :
  windows text i sp →
  ∀ p, i ≤ p < length text → ∃ k a e, sp !! k = Some (a, e) ∧ a ≤ p < e.
Proof.
  induction 1 as [i Hi He|i rest Hi He Hw IH]; intros p Hp.
  - exists 0, i, (window_end text i). split; [done|lia].
  - destruct (decide (p < window_end text i)) as [Hlt|Hge].
    + exists 0, i, (window_end text i). split; [done|lia].
    + destruct (IH p) as (k & a & e & Hk & Hr); [lia|].
      exists (S k), a, e. done.
Qed.

Lemma drop_slice s n a b : drop n (slice s a b) = slice s (a + n) b.
Proof.
  unfold slice. rewrite skipn_firstn_comm, drop_drop.
  by rewrite Nat.sub_add_distr.
Qed.

Lemma slice_app_drop s a b :
  a ≤ b → slice s a b ++ drop b s = drop a s.
Proof.
  intros Hab. unfold slice.
  rewrite <-(take_drop (b - a) (drop a s)) at 2.
  rewrite drop_drop. by replace (a + (b - a)) with b by lia.
Qed.

Lemma slice_to_end s a b : length s ≤ b → slice s a b = drop a s.
Proof.
  intros. unfold slice. apply take_ge. rewrite length_drop. lia.
Qed.

(** Without the characters each window repeats, the windows from [i] on
    spell the text from [i] on. *)
Lemma windows_tail text i sp :
  windows text i sp →
  concat (map (λ ae, drop OVERLAP (slice text ae.1 ae.2)) sp)
  = drop (i + OVERLAP) text.
Proof.
  induction 1 as [i Hi He|i rest Hi He Hw IH]; simpl.
  - rewrite app_nil_r, drop_slice. by apply slice_to_end.
  - rewrite IH, drop_slice.
    pose proof (window_end_continue text i He) as (? & ? & ?).
    replace (window_end text i - OVERLAP + OVERLAP) with (window_end text i)
      by lia.
    apply slice_app_drop. unfold CHUNK_SIZE, OVERLAP in *. lia.
Qed.

Lemma windows_reassemble text page sp :
  windows text 0 sp → reassemble (map (window_of text page) sp) = text.
Proof.
  intros Hw. inversion Hw as [i Hi He|i rest Hi He Hw']; subst; simpl.
  - by rewrite app_nil_r, slice_to_end.
  - rewrite map_map. simpl. rewrite (windows_tail _ _ _ Hw').
    pose proof (window_end_continue text 0 He) as (? & ? & ?).
    replace (window_end text 0 - OVERLAP + OVERLAP) with (window_end text 0)
      by lia.
    apply (slice_app_drop text 0). lia.
Qed.

(** The [OVERLAP] characters two consecutive windows have in common. *)
Lemma shared_overlap text a1 e1 a2 e2 :
  a2 + OVERLAP = e1 → a1 ≤ a2 → e1 ≤ e2 → e1 ≤ length text →
  drop (length (slice text a1 e1) - OVERLAP) (slice text a1 e1)
  = slice text a2 e1 ∧
  take OVERLAP (slice text a2 e2) = slice text a2 e1 ∧
  length (slice text a2 e1) = OVERLAP.
Proof.
  intros Ha H1 H2 H3. rewrite !length_slice, drop_slice.
  split_and!.
  - f_equal. lia.
  - unfold slice. rewrite take_take. f_equal. lia.
  - lia.
Qed.

Lemma window_end_last text i :
  length text ≤ i + CHUNK_SIZE → window_end text i = length text.
Proof. pose proof (window_end_bounds text i). lia. Qed.

Lemma window_end_no_snap text i :
  re_search SENTENCE_END
    (slice text ((i + CHUNK_SIZE) `min` length text)
       ((i + CHUNK_SIZE) `min` length text + 120)) = None →
  window_end text i = (i + CHUNK_SIZE) `min` length text.
Proof. unfold window_end. by intros ->. Qed.

Lemma chunk_spans_result raw page :
  ∃ sp, chunk_spans (clean raw) = Some sp ∧
        chunk raw page = Some (map (window_of (clean raw) page) sp) ∧
        (if decide (clean raw = []) then sp = []
         else windows (clean raw) 0 sp).
Proof.
  destruct (chunk_spans_total (clean raw)) as [sp Hsp]. exists sp.
  split_and!; [done| |by apply chunk_spans_windows].
  by rewrite chunk_eq_spans, Hsp.
Qed.

(** ** Claims about the chunker *)

(** C3. The windows of a page cover its normalized text without gaps: the
    first window starts at 0; each later window starts [OVERLAP]
    characters before the end of the one before it, and those [OVERLAP]
    characters are the end of the one and the start of the other; a
    window is the last one exactly when its end is the length of the
    text; every position of the text lies in a window, and the window
    texts, each later one without its first [OVERLAP] characters, spell
    the normalized text. For a normalized text of 1000 characters with no
    sentence end found behind the first cutoff, the windows are [0, 900)
    and [750, 1000). *)
Theorem C3_windows_cover_text (raw : option str) (page : nat) :
  let text := clean raw in
  ∃ sp,
    chunk_spans text = Some sp ∧
    chunk raw page = Some (map (window_of text page) sp) ∧
    (text ≠ [] → ∃ e rest, sp = (0, e) :: rest) ∧
    (∀ k a1 e1 a2 e2,
       sp !! k = Some (a1, e1) → sp !! S k = Some (a2, e2) →
       a2 + OVERLAP = e1 ∧ e1 < length text ∧
       drop (length (slice text a1 e1) - OVERLAP) (slice text a1 e1)
       = take OVERLAP (slice text a2 e2) ∧
       length (take OVERLAP (slice text a2 e2)) = OVERLAP) ∧
    (∀ k a e,
       sp !! k = Some (a, e) →
       a < e ∧ e ≤ length text ∧ (e = length text ↔ S k = length sp)) ∧
    (∀ p, p < length text → ∃ k a e, sp !! k = Some (a, e) ∧ a ≤ p < e) ∧
    reassemble (map (window_of text page) sp) = text ∧
    (length text = 1000 →
     re_search SENTENCE_END (slice text 900 1020) = None →
     sp = [(0, 900); (750, 1000)]).
Proof.
  intros text. destruct (chunk_spans_result raw page) as (sp & Hsp & Hch & Hw).
  fold text in Hsp, Hch, Hw. exists sp. split; [done|]. split; [done|].
  case_decide as Ht.
  { subst sp. rewrite Ht. split_and!; try done.
    simpl. intros p Hp. lia. }
  split_and!.
  - intros _. apply windows_head in Hw as [rest ->]. eauto.
  - intros k a1 e1 a2 e2 H1 H2.
    destruct (windows_consecutive _ _ _ Hw _ _ _ _ _ H1 H2)
      as (Ha & He1 & Hfull & He2).
    destruct (shared_overlap text a1 e1 a2 e2) as (Hd & Htk & Hlen);
      [done|unfold CHUNK_SIZE, OVERLAP in *; lia|done|lia|].
    split_and!; [done|done|congruence|congruence].
  - intros k a e Hk.
    destruct (windows_span _ _ _ Hw _ _ _ Hk) as (_ & ? & ? & _ & ?). done.
  - intros p Hp. apply (windows_cover _ _ _ Hw). lia.
  - by apply windows_reassemble.
  - intros Hlen Hsnap.
    assert (window_end text 0 = 900) as H0.
    { rewrite window_end_no_snap; rewrite Hlen; done. }
    assert (window_end text 750 = 1000) as H1.
    { rewrite window_end_last; rewrite Hlen; unfold CHUNK_SIZE; lia. }
    assert (spans_from 2 text 0 = Some [(0, 900); (750, 1000)]) as H2.
    { simpl. rewrite H0, Hlen. simpl.
      replace (900 - OVERLAP) with 750 by done.
      rewrite H1. repeat case_decide; try lia. done. }
    apply (spans_from_mono _ (S (length text))) in H2; [|lia].
    unfold chunk_spans in Hsp. congruence.
Qed.

(** C4. No chunk text is longer than [CHUNK_SIZE + 120]: every window
    ends at its raw cutoff [min(i + CHUNK_SIZE, len)] or at most 120
    characters behind it, and never behind the end of the text. *)
Theorem C4_chunk_length_bound (raw : option str) (page : nat) :
  let text := clean raw in
  ∃ sp ws,
    chunk_spans text = Some sp ∧
    chunk raw page = Some ws ∧
    ws = map (window_of text page) sp ∧
    Forall (λ w, length (w_text w) ≤ CHUNK_SIZE + 120) ws ∧
    Forall (λ ae, (ae.1 + CHUNK_SIZE) `min` length text ≤ ae.2 ∧
                  ae.2 ≤ (ae.1 + CHUNK_SIZE) `min` length text + 120 ∧
                  ae.2 ≤ length text) sp.
Proof.
  intros text. destruct (chunk_spans_result raw page) as (sp & Hsp & Hch & Hw).
  fold text in Hsp, Hch, Hw.
  exists sp, (map (window_of text page) sp). split_and!; try done.
  - case_decide as Ht; [by subst sp|].
    apply Forall_map, Forall_lookup. intros k [a e] Hk. simpl.
    destruct (windows_span _ _ _ Hw _ _ _ Hk) as (_ & ? & ? & -> & _).
    pose proof (window_end_bounds text a). rewrite length_slice.
    unfold CHUNK_SIZE in *. lia.
  - case_decide as Ht; [by subst sp|].
    apply Forall_lookup. intros k [a e] Hk. simpl.
    destruct (windows_span _ _ _ Hw _ _ _ Hk) as (_ & ? & ? & -> & _).
    apply window_end_bounds.
Qed.

(** C5. A page whose normalized text is not empty and shorter than
    [CHUNK_SIZE] gives exactly one window, whose text is the normalized
    text; a page whose normalized text is empty gives no window. *)
Theorem C5_short_text_one_window (raw : option str) (page : nat) :
  (clean raw ≠ [] → length (clean raw) < CHUNK_SIZE →
   chunk raw page = Some [{| w_page := page; w_text := clean raw |}]) ∧
  (clean raw = [] → chunk raw page = Some []).
Proof.
  unfold chunk. split.
  - intros Hne Hlen. simpl. destruct (clean raw) as [|c text] eqn:Ht; [done|].
    case_decide; [|simpl in *; lia].
    rewrite window_end_last by lia.
    case_decide; [|lia]. by rewrite slice_to_end.
  - by intros ->.
Qed.

(** C10. The loop of [chunk] terminates on every text: an iteration
    after which the loop goes on had a window end of at least
    [i + CHUNK_SIZE], so the next start [end - OVERLAP] is at least
    [i + 750]; hence [chunk] returns, and one iteration for every 750
    characters of normalized text, and one more, are enough. *)
Theorem C10_chunk_terminates (raw : option str) (page : nat) :
  CHUNK_SIZE - OVERLAP = 750 ∧
  (∀ text i,
     i < length text → window_end text i < length text →
     i + CHUNK_SIZE ≤ window_end text i ∧
     i + (CHUNK_SIZE - OVERLAP) ≤ window_end text i - OVERLAP) ∧
  ∃ ws,
    chunk raw page = Some ws ∧
    ∀ fuel, length (clean raw) / 750 < fuel →
            chunk_loop fuel (clean raw) page 0 [] = Some ws.
Proof.
  split; [done|]. split.
  - intros text i _ He.
    pose proof (window_end_continue text i He).
    unfold CHUNK_SIZE, OVERLAP in *. lia.
  - destruct (chunk_spans_result raw page) as (sp & Hsp & Hch & _).
    eexists. split; [done|]. intros fuel Hf.
    destruct (spans_from_fuel fuel (clean raw) 0) as [sp' Hsp'].
    { by rewrite Nat.sub_0_r. }
    rewrite chunk_loop_spans, Hsp'. simpl. do 2 f_equal.
    unfold chunk_spans in Hsp.
    destruct (Nat.le_ge_cases fuel (S (length (clean raw)))).
    + apply (spans_from_mono _ (S (length (clean raw)))) in Hsp'; [|done].
      congruence.
    + apply (spans_from_mono _ fuel) in Hsp; [|done]. congruence.
Qed.

(** ** The pass over the pages *)

Lemma foldl_add_chunk o chunks ws :
  foldl (add_chunk o) chunks ws
  = chunks ++ imap (λ j, tag o (length chunks + j)) ws.
Proof.
  revert chunks. induction ws as [|w ws IH]; intros chunks; simpl.
  - by rewrite app_nil_r.
  - rewrite IH. unfold add_chunk. rewrite <-app_assoc. simpl.
    rewrite Nat.add_0_r. do 2 f_equal. apply imap_ext. intros j w' _. simpl.
    rewrite length_app. simpl. f_equal. lia.
Qed.

Lemma read_pages_windows o pages p chunks :
  read_pages o pages p chunks
  = foldl (add_chunk o) chunks <$> page_windows pages p.
Proof.
  revert p chunks. induction pages as [|pg pages IH]; intros p chunks; simpl.
  - done.
  - destruct (chunk (Some (or_empty pg)) (p + 1)) as [ws|]; simpl; [|done].
    rewrite IH. destruct (page_windows pages (S p)) as [wss|]; simpl; [|done].
    by rewrite foldl_app.
Qed.

Lemma chunk_total raw page : is_Some (chunk raw page).
Proof. destruct (chunk_spans_result raw page) as (sp & _ & -> & _). done. Qed.

Lemma page_windows_total pages p : is_Some (page_windows pages p).
Proof.
  revert p. induction pages as [|pg pages IH]; intros p; simpl; [done|].
  destruct (chunk_total (Some (or_empty pg)) (p + 1)) as [ws ->].
  destruct (IH (S p)) as [wss ->]. done.
Qed.

Lemma main_windows o pages :
  ∃ ws, page_windows pages 0 = Some ws ∧
        main o pages
        = Some (imap (tag o) ws, index_of o (imap (tag o) ws)).
Proof.
  destruct (page_windows_total pages 0) as [ws Hws]. exists ws.
  split; [done|]. unfold main. rewrite read_pages_windows, Hws. simpl.
  by rewrite foldl_add_chunk.
Qed.

Lemma chunk_pages raw page ws :
  chunk raw page = Some ws → Forall (λ w, w_page w = page) ws.
Proof.
  rewrite chunk_eq_spans. destruct (chunk_spans (clean raw)) as [sp|]; [|done].
  intros [= <-]. by apply Forall_map, Forall_true.
Qed.

Lemma page_windows_pages pages p ws :
  page_windows pages p = Some ws →
  Forall (λ w, p < w_page w ≤ p + length pages) ws ∧
  StronglySorted le (map w_page ws).
Proof.
  revert p ws. induction pages as [|pg pages IH]; intros p ws; simpl.
  - intros [= <-]. split; constructor.
  - destruct (chunk (Some (or_empty pg)) (p + 1)) as [ws1|] eqn:H1;
      simpl; [|done].
    destruct (page_windows pages (S p)) as [ws2|] eqn:H2; simpl; [|done].
    intros [= <-]. apply chunk_pages in H1. destruct (IH _ _ H2) as [Hp Hs].
    split.
    + apply Forall_app. split.
      * eapply Forall_impl; [exact H1|]. simpl. lia.
      * eapply Forall_impl; [exact Hp|]. simpl. lia.
    + rewrite map_app. apply StronglySorted_app. split_and!; [| |done].
      * intros x1 x2 (w1 & -> & Hw1)%list_elem_of_fmap
          (w2 & -> & Hw2)%list_elem_of_fmap.
        rewrite Forall_forall in H1, Hp.
        specialize (H1 _ Hw1). specialize (Hp _ Hw2). simpl in *. lia.
      * clear -H1. induction H1 as [|w l Hw Hl IHl]; simpl; constructor;
          [done|].
        apply Forall_map. eapply Forall_impl; [exact Hl|]. simpl. lia.
Qed.

Lemma imap_tag_ids o n ws :
  map c_id (imap (λ j, tag o (n + j)) ws) = seq n (length ws).
Proof.
  revert n. induction ws as [|w ws IH]; intros n; simpl; [done|].
  rewrite Nat.add_0_r. f_equal. rewrite <-IH. f_equal.
  apply imap_ext. intros j w' _. simpl. f_equal. lia.
Qed.

Lemma imap_tag_pages o n ws :
  map c_page (imap (λ j, tag o (n + j)) ws) = map w_page ws.
Proof.
  revert n. induction ws as [|w ws IH]; intros n; simpl; [done|].
  f_equal. rewrite <-(IH (S n)). f_equal.
  apply imap_ext. intros j w' _. simpl. f_equal. lia.
Qed.

Lemma imap_tag_lookup o ws k c :
  imap (tag o) ws !! k = Some c ↔ ∃ w, ws !! k = Some w ∧ c = tag o k w.
Proof.
  rewrite list_lookup_imap. destruct (ws !! k) as [w|]; simpl.
  - split; [intros [= <-]; eauto|]. intros (w' & Hw & ->). congruence.
  - split; [done|]. by intros (w' & ? & _).
Qed.

(** ** Claims about the chunk ids and the empty page *)

(** C7. In a run that produces N chunks, the chunk produced k-th (from
    0) has id k, so ids count up in production order, are all below N and
    are pairwise distinct; the chunks are the windows of the pages taken
    in page order, so their page numbers never decrease. *)
Theorem C7_chunk_ids_sequential (o : SetOrder) (pages : list (option str)) :
  ∃ chunks index ws,
    main o pages = Some (chunks, index) ∧
    page_windows pages 0 = Some ws ∧
    N index = length chunks ∧
    map c_id chunks = seq 0 (N index) ∧
    NoDup (map c_id chunks) ∧
    (∀ k c, chunks !! k = Some c →
       c_id c = k ∧ 0 ≤ c_id c < N index ∧
       ∃ w, ws !! k = Some w ∧ c_page c = w_page w ∧ c_text c = w_text w) ∧
    StronglySorted le (map c_page chunks).
Proof.
  destruct (main_windows o pages) as (ws & Hws & Hmain).
  eexists _, _, ws. split; [exact Hmain|]. split; [done|]. simpl.
  assert (map c_id (imap (tag o) ws) = seq 0 (length (imap (tag o) ws))) as Hid.
  { rewrite length_imap. apply (imap_tag_ids o 0). }
  split_and!; [done|done| | |].
  - rewrite Hid. apply NoDup_seq.
  - intros k c Hk. pose proof (lookup_lt_Some _ _ _ Hk).
    apply imap_tag_lookup in Hk as (w & Hw & ->). simpl.
    split_and!; [done|lia|done|eauto].
  - destruct (page_windows_pages _ _ _ Hws) as [_ Hs].
    by rewrite (imap_tag_pages o 0).
Qed.

(** ** Dictionaries *)

Section dict.
Context {V : Type}.
Implicit Types (d : dict V) (k : str) (v : V).

Lemma dict_get_set d k k' v :
  dict_get (dict_set k v d) k'
  = if decide (k = k') then Some v else dict_get d k'.
Proof.
  induction d as [|[k0 v0] d IH]; simpl.
  - repeat case_decide; congruence.
  - repeat (case_decide; simpl); try congruence.
Qed.

Lemma dict_get_keys d k : is_Some (dict_get d k) ↔ k ∈ dict_keys d.
Proof.
  unfold dict_keys. induction d as [|[k0 v0] d IH]; simpl.
  - rewrite elem_of_nil. split; [by intros [? ?]|done].
  - rewrite elem_of_cons. case_decide as Hk.
    + split; [by left|done].
    + rewrite IH. split; [by right|]. intros [?|?]; [congruence|done].
Qed.

Lemma dict_keys_set d k v :
  dict_keys (dict_set k v d)
  = if decide (k ∈ dict_keys d) then dict_keys d else dict_keys d ++ [k].
Proof.
  unfold dict_keys. induction d as [|[k0 v0] d IH]; [done|]. csimpl.
  destruct (decide (k0 = k)) as [->|Hk]; csimpl.
  - rewrite decide_True; [done|]. by left.
  - rewrite IH. destruct (decide (k ∈ d.*1)) as [Hin|Hin].
    + rewrite decide_True; [done|]. by right.
    + rewrite decide_False; [done|]. rewrite elem_of_cons.
      intros [?|?]; [congruence|done].
Qed.

Lemma dict_keys_set_NoDup d k v :
  NoDup (dict_keys d) → NoDup (dict_keys (dict_set k v d)).
Proof.
  intros Hd. rewrite dict_keys_set. case_decide; [done|].
  apply NoDup_app. split_and!; [done| |apply NoDup_singleton].
  intros x Hx ->%list_elem_of_singleton. done.
Qed.
End dict.

(** ** The frequency table *)

Lemma set_list_NoDup o l : NoDup (set_list o l).
Proof. rewrite (set_list_perm o l). apply NoDup_remove_dups. Qed.

Lemma set_list_elem o l w : w ∈ set_list o l ↔ w ∈ l.
Proof. rewrite (set_list_perm o l). apply elem_of_remove_dups. Qed.

Lemma set_list_Permutation o1 o2 l : set_list o1 l ≡ₚ set_list o2 l.
Proof. by rewrite !set_list_perm. Qed.

Lemma foldl_df_incr l df w :
  NoDup l →
  dict_get (foldl df_incr df l) w
  = if decide (w ∈ l) then Some (default 0 (dict_get df w) + 1)
    else dict_get df w.
Proof.
  intros Hl. revert df. induction Hl as [|x l Hx Hl IH]; intros df; simpl.
  - done.
  - rewrite IH. unfold df_incr. rewrite dict_get_set.
    destruct (decide (x = w)) as [->|Hne].
    + rewrite decide_False by done. rewrite decide_True; [done|]. by left.
    + destruct (decide (w ∈ l)).
      * rewrite decide_True; [done|]. by right.
      * rewrite decide_False; [done|]. rewrite elem_of_cons.
        intros [?|?]; [congruence|done].
Qed.

Lemma df_add_get o df c w :
  dict_get (df_add o df c) w
  = if decide (w ∈ toks (Some (c_text c)))
    then Some (default 0 (dict_get df w) + 1) else dict_get df w.
Proof.
  unfold df_add. rewrite foldl_df_incr by apply set_list_NoDup.
  repeat case_decide; try done; exfalso; by rewrite set_list_elem in *.
Qed.

Lemma doc_freq_cons c cs w :
  doc_freq (c :: cs) w
  = (if decide (w ∈ toks (Some (c_text c))) then 1 else 0) + doc_freq cs w.
Proof.
  unfold doc_freq. rewrite filter_cons. by case_decide.
Qed.

Lemma doc_freq_le cs w : doc_freq cs w ≤ length cs.
Proof. apply length_filter. Qed.

Lemma foldl_df_add o cs df w n :
  dict_get df w = freq_entry n →
  dict_get (foldl (df_add o) df cs) w = freq_entry (n + doc_freq cs w).
Proof.
  revert df n. induction cs as [|c cs IH]; intros df n Hdf; simpl.
  - by rewrite Nat.add_0_r.
  - rewrite doc_freq_cons. case_decide as Hw.
    + rewrite (IH _ (S n)); [f_equal; lia|].
      rewrite df_add_get, decide_True, Hdf by done.
      unfold freq_entry. repeat case_decide; simpl; try lia; f_equal; lia.
    + rewrite (IH _ n); [done|]. by rewrite df_add_get, decide_False.
Qed.

Lemma build_df_get o cs w :
  dict_get (build_df o cs) w = freq_entry (doc_freq cs w).
Proof. by apply (foldl_df_add o cs [] w 0). Qed.

Lemma build_df_keys_NoDup o cs : NoDup (dict_keys (build_df o cs)).
Proof.
  unfold build_df. assert (NoDup (dict_keys ([] : dict nat))) as H
    by constructor.
  revert H. generalize ([] : dict nat).
  induction cs as [|c cs IH]; intros df Hdf; simpl; [done|].
  apply IH. unfold df_add. revert df Hdf.
  induction (set_list o (toks (Some (c_text c)))) as [|w l IHl];
    intros df Hdf; simpl; [done|].
  apply IHl. by apply dict_keys_set_NoDup.
Qed.

Lemma build_idf_get n df w :
  dict_get (build_idf n df) w = idf_weight n <$> dict_get df w.
Proof.
  induction df as [|[k d] df IH]; simpl; [done|]. by case_decide.
Qed.

Lemma build_idf_keys n df : dict_keys (build_idf n df) = dict_keys df.
Proof.
  unfold dict_keys, build_idf. rewrite <-list_fmap_compose.
  by apply list_fmap_ext.
Qed.

(** ** The weight formula *)

Lemma ln_le_mono (x y : R) : (0 < x)%R → (x <= y)%R → (ln x <= ln y)%R.
Proof.
  intros Hx [Hlt| ->].
  - left. by apply ln_increasing.
  - apply Rle_refl.
Qed.

Lemma idf_ratio_mono (n d1 d2 : nat) :
  d1 ≤ d2 →
  ((INR n + 1) / (INR d2 + 1) <= (INR n + 1) / (INR d1 + 1))%R.
Proof.
  intros Hd. pose proof (pos_INR n). pose proof (pos_INR d1).
  apply le_INR in Hd. unfold Rdiv.
  apply Rmult_le_compat_l; [lra|].
  apply Rinv_le_contravar; lra.
Qed.

Lemma idf_ratio_ge_1 (n d : nat) :
  d ≤ n → (1 <= (INR n + 1) / (INR d + 1))%R.
Proof.
  intros Hd. pose proof (pos_INR d). apply le_INR in Hd.
  apply (Rmult_le_reg_r (INR d + 1)); [lra|].
  unfold Rdiv. rewrite Rmult_assoc, Rinv_l by lra. lra.
Qed.

Lemma idf_weight_ge_1 (n d : nat) : d ≤ n → (1 <= idf_weight n d)%R.
Proof.
  intros Hd. unfold idf_weight.
  pose proof (ln_le_mono 1 _ Rlt_0_1 (idf_ratio_ge_1 n d Hd)) as H.
  rewrite ln_1 in H. lra.
Qed.

Lemma idf_weight_anti (n d1 d2 : nat) :
  d1 ≤ d2 → d2 ≤ n → (idf_weight n d2 <= idf_weight n d1)%R.
Proof.
  intros H12 H2n. unfold idf_weight.
  apply Rplus_le_compat_r, ln_le_mono; [|by apply idf_ratio_mono].
  pose proof (idf_ratio_ge_1 n d2 H2n). lra.
Qed.

Lemma idf_index_get o chunks w :
  dict_get (idf (index_of o chunks)) w
  = idf_weight (length chunks) <$> freq_entry (doc_freq chunks w).
Proof. simpl. by rewrite build_idf_get, build_df_get. Qed.

Lemma freq_entry_Some n d : freq_entry n = Some d ↔ d = n ∧ 1 ≤ n.
Proof.
  unfold freq_entry. case_decide; split.
  - done.
  - intros [_ ?]. lia.
  - intros [= <-]. split; [done|lia].
  - by intros [-> _].
Qed.

(** ** Claims about the index *)

(** C1. Every token of the idf mapping has a document frequency [df[w]],
    the number of chunks whose token set contains it, between 1 and N;
    its weight is [ln((N+1)/(df[w]+1)) + 1], which is positive, and a
    token with a higher document frequency never has a higher weight.
    The idf mapping has the keys of [df], in the same order. *)
Theorem C1_idf_formula (o : SetOrder) (pages : list (option str)) :
  ∃ chunks index,
    main o pages = Some (chunks, index) ∧
    N index = length chunks ∧
    dict_keys (idf index) = dict_keys (build_df o chunks) ∧
    (∀ w v,
       dict_get (idf index) w = Some v →
       ∃ d, dict_get (build_df o chunks) w = Some d ∧
            d = doc_freq chunks w ∧ 1 ≤ d ≤ N index ∧
            v = (ln ((INR (N index) + 1) / (INR d + 1)) + 1)%R ∧
            (0 < v)%R) ∧
    (∀ u v wu wv,
       dict_get (idf index) u = Some wu →
       dict_get (idf index) v = Some wv →
       doc_freq chunks u ≤ doc_freq chunks v → (wv <= wu)%R).
Proof.
  destruct (main_windows o pages) as (ws & _ & Hmain).
  eexists _, _. split; [exact Hmain|].
  set (chunks := imap (tag o) ws).
  split; [done|]. split; [apply build_idf_keys|]. split.
  - intros w v. rewrite idf_index_get, build_df_get.
    destruct (freq_entry (doc_freq chunks w)) as [d|] eqn:Hd; [|done].
    simpl. intros [= <-]. apply freq_entry_Some in Hd as [-> Hd].
    pose proof (doc_freq_le chunks w).
    exists (doc_freq chunks w). split_and!; try done.
    pose proof (idf_weight_ge_1 (length chunks) (doc_freq chunks w)
                  (doc_freq_le chunks w)) as Hge.
    lra.
  - intros u v wu wv. rewrite !idf_index_get.
    destruct (freq_entry (doc_freq chunks u)) as [du|] eqn:Hu; [|done].
    destruct (freq_entry (doc_freq chunks v)) as [dv|] eqn:Hv; [|done].
    simpl. intros [= <-] [= <-] Hle.
    apply freq_entry_Some in Hu as [-> _].
    apply freq_entry_Some in Hv as [-> _].
    apply idf_weight_anti; [done|apply doc_freq_le].
Qed.

(** ** Tokenization *)

Lemma sub_from_cls fuel p r prev s :
  length s < fuel →
  sub_from fuel (Cls p) [r] prev s = map (λ c, if p c then r else c) s.
Proof.
  revert fuel prev. induction s as [|c s IH]; intros fuel prev Hf;
    (destruct fuel as [|fuel]; [simpl in Hf; lia|]).
  - done.
  - simpl in Hf. unfold sub_from; fold sub_from.
    unfold match_here. simpl. destruct (p c); simpl.
    + rewrite drop_0. f_equal. apply IH. lia.
    + f_equal. apply IH. lia.
Qed.

Lemma re_sub_cls p r s :
  re_sub (Cls p) [r] s = map (λ c, if p c then r else c) s.
Proof. apply sub_from_cls. lia. Qed.

Lemma one_of_hyphen c : one_of "-" c = chr_eqb c "-".
Proof. unfold one_of. simpl. apply orb_false_r. Qed.

Lemma blank_non_token_eq c :
  (if negb (tok_chr c) then " "%char else c) = blank_non_token c.
Proof.
  unfold blank_non_token, tok_chr. rewrite one_of_hyphen.
  by destruct (is_lower c || is_digit c || is_space c || chr_eqb c "-").
Qed.

Lemma toks_in_words s :
  toks s
  = filter (λ t, 2 < length t)
      (split (map blank_non_token (lower (or_empty s)))).
Proof.
  unfold toks, NOT_TOK_CHR. change (lit " ") with [" "%char].
  rewrite re_sub_cls. do 2 f_equal.
  apply list_fmap_ext. intros _ c _. apply blank_non_token_eq.
Qed.

Lemma split_from_Forall (P : ascii → Prop) cur s :
  Forall P cur → Forall (λ c, is_space c = false → P c) s →
  Forall (Forall P) (split_from cur s).
Proof.
  revert cur. induction s as [|c s IH]; intros cur Hcur Hs; simpl.
  - destruct cur; [constructor|]. constructor; [done|constructor].
  - apply Forall_cons in Hs as [Hc Hs].
    destruct (is_space c) eqn:Hsp.
    + destruct cur.
      * by apply IH.
      * constructor; [done|]. by apply IH.
    + apply IH; [|done]. apply Forall_app. split; [done|].
      constructor; [by apply Hc|constructor].
Qed.

(** A token character: a lowercase letter, a digit or the hyphen. *)
Lemma blank_non_token_class c :
  is_space (blank_non_token c) = false →
  is_lower (blank_non_token c) || is_digit (blank_non_token c)
  || chr_eqb (blank_non_token c) "-" = true.
Proof.
  unfold blank_non_token.
  destruct (is_lower c) eqn:Hl; simpl; [by rewrite Hl|].
  destruct (is_digit c) eqn:Hd; simpl; [by rewrite Hl, Hd|].
  destruct (is_space c) eqn:Hs; simpl; [by rewrite Hs|].
  destruct (chr_eqb c "-") eqn:Hh; simpl; [by rewrite Hl, Hd, Hh|].
  done.
Qed.

Lemma toks_Forall s :
  Forall (λ t, 2 < length t ∧
               Forall (λ c, is_lower c || is_digit c || chr_eqb c "-" = true) t)
    (toks s).
Proof.
  rewrite toks_in_words. apply Forall_forall. intros t Ht.
  apply list_elem_of_filter in Ht as [Hlen Ht]. split; [done|].
  clear Hlen. revert t Ht. apply Forall_forall.
  apply split_from_Forall; [constructor|].
  apply Forall_map, Forall_true. intros c. apply blank_non_token_class.
Qed.

(** ** A page without text *)

Lemma chunk_next_page raw p : chunk raw (S p) = map w_next <$> chunk raw p.
Proof.
  rewrite !chunk_eq_spans. destruct (chunk_spans (clean raw)) as [sp|]; simpl;
    [|done].
  f_equal. rewrite <-list_fmap_compose. by apply list_fmap_ext.
Qed.

Lemma page_windows_next pages p :
  page_windows pages (S p) = map w_next <$> page_windows pages p.
Proof.
  revert p. induction pages as [|pg pages IH]; intros p; simpl; [done|].
  rewrite chunk_next_page.
  destruct (chunk (Some (or_empty pg)) (p + 1)) as [ws|]; simpl; [|done].
  rewrite IH. destruct (page_windows pages (S p)) as [wss|]; simpl; [|done].
  by rewrite map_app.
Qed.

Lemma page_windows_app pages1 pages2 p :
  page_windows (pages1 ++ pages2) p
  = ws1 ← page_windows pages1 p;
    ws2 ← page_windows pages2 (p + length pages1);
    Some (ws1 ++ ws2).
Proof.
  revert p. induction pages1 as [|pg pages1 IH]; intros p; simpl.
  - rewrite Nat.add_0_r. by destruct (page_windows pages2 p).
  - destruct (chunk (Some (or_empty pg)) (p + 1)) as [ws|]; simpl; [|done].
    rewrite IH. replace (S p + length pages1) with (p + S (length pages1))
      by lia.
    destruct (page_windows pages1 (S p)) as [ws1|]; simpl; [|done].
    destruct (page_windows pages2 _) as [ws2|]; simpl; [|done].
    by rewrite app_assoc.
Qed.

Lemma chunk_empty page : chunk (Some []) page = Some [].
Proof. reflexivity. Qed.

Lemma imap_tag_texts o n ws :
  map c_text (imap (λ j, tag o (n + j)) ws) = map w_text ws.
Proof.
  revert n. induction ws as [|w ws IH]; intros n; simpl; [done|].
  f_equal. rewrite <-(IH (S n)). f_equal.
  apply imap_ext. intros j w' _. simpl. f_equal. lia.
Qed.

Lemma build_df_fmap o cs :
  build_df o cs
  = foldl (λ df t, foldl df_incr df (set_list o (toks (Some t)))) []
      (map c_text cs).
Proof. by rewrite foldl_fmap. Qed.

Lemma build_df_texts o cs1 cs2 :
  map c_text cs1 = map c_text cs2 → build_df o cs1 = build_df o cs2.
Proof. intros Ht. by rewrite !build_df_fmap, Ht. Qed.

Lemma index_of_texts o cs1 cs2 :
  map c_text cs1 = map c_text cs2 → index_of o cs1 = index_of o cs2.
Proof.
  intros Ht. unfold index_of. rewrite (build_df_texts o cs1 cs2 Ht).
  assert (length cs1 = length cs2) as ->; [|done].
  by rewrite <-(length_map c_text cs1), Ht, length_map.
Qed.

(** C9. A page whose text extraction gives the empty string, or nothing
    at all, yields no window; the run returns as usual, no chunk of its
    output carries the number of that page, and its chunks and its index
    are those of the run over the other pages alone, but for the page
    numbers behind the empty page, which are one higher. *)
Theorem C9_empty_page_contributes_nothing
    (o : SetOrder) (pre post : list (option str)) (pg : option str) :
  or_empty pg = [] →
  chunk (Some (or_empty pg)) (length pre + 1) = Some [] ∧
  ∃ chunks index chunks',
    main o (pre ++ pg :: post) = Some (chunks, index) ∧
    main o (pre ++ post) = Some (chunks', index) ∧
    Forall (λ c, c_page c ≠ length pre + 1) chunks ∧
    length chunks = length chunks' ∧
    build_df o chunks = build_df o chunks' ∧
    (∀ k c', chunks' !! k = Some c' →
       chunks !! k
       = Some (if decide (c_page c' ≤ length pre) then c' else next_page c')).
Proof.
  intros Hpg. rewrite Hpg. split; [apply chunk_empty|].
  destruct (main_windows o (pre ++ pg :: post)) as (ws & Hws & Hmain).
  destruct (main_windows o (pre ++ post)) as (ws' & Hws' & Hmain').
  rewrite page_windows_app in Hws, Hws'. simpl in Hws, Hws'.
  rewrite Hpg, chunk_empty in Hws. simpl in Hws.
  rewrite page_windows_next in Hws.
  destruct (page_windows pre 0) as [ws1|] eqn:H1; simpl in *; [|done].
  destruct (page_windows post (length pre)) as [ws2|] eqn:H2;
    simpl in *; [|done].
  injection Hws as <-. injection Hws' as <-.
  apply page_windows_pages in H1 as [Hp1 _].
  apply page_windows_pages in H2 as [Hp2 _].
  assert (map c_text (imap (tag o) (ws1 ++ map w_next ws2))
          = map c_text (imap (tag o) (ws1 ++ ws2))) as Htexts.
  { rewrite !(imap_tag_texts o 0), !map_app. f_equal.
    rewrite <-list_fmap_compose. by apply list_fmap_ext. }
  eexists _, _, _. split; [exact Hmain|]. split.
  { rewrite Hmain'. do 2 f_equal. symmetry. by apply index_of_texts. }
  split_and!.
  - apply Forall_lookup. intros k c (w & Hw & ->)%imap_tag_lookup. simpl.
    apply list_elem_of_lookup_2, elem_of_app in Hw as [Hw|Hw].
    + rewrite Forall_forall in Hp1. specialize (Hp1 _ Hw). lia.
    + apply list_elem_of_fmap in Hw as (w2 & -> & Hw).
      rewrite Forall_forall in Hp2. specialize (Hp2 _ Hw). simpl. lia.
  - by rewrite !length_imap, !length_app, length_map.
  - by apply build_df_texts.
  - intros k c' (w & Hw & ->)%imap_tag_lookup. apply imap_tag_lookup.
    simpl. apply lookup_app_Some in Hw as [Hw|[Hk Hw]].
    + exists w. split; [by apply lookup_app_l_Some|].
      apply list_elem_of_lookup_2 in Hw.
      rewrite Forall_forall in Hp1. specialize (Hp1 _ Hw).
      rewrite decide_True; [done|lia].
    + exists (w_next w). split.
      * rewrite lookup_app_r by done. by rewrite list_lookup_fmap, Hw.
      * apply list_elem_of_lookup_2 in Hw.
        rewrite Forall_forall in Hp2. specialize (Hp2 _ Hw).
        rewrite decide_False; [done|lia].
Qed.

(** ** Entity tags *)

Lemma set_list_singleton o x : set_list o [x] = [x].
Proof. apply Permutation_singleton_r. by rewrite set_list_perm. Qed.

Lemma scenario_windows :
  page_windows [Some scenario_text] 0
  = Some [{| w_page := 1; w_text := scenario_text |}].
Proof. vm_compute. reflexivity. Qed.

Lemma scenario_dates : re_findall DATE_PAT scenario_text = [lit "2024-03-01"].
Proof. vm_compute. reflexivity. Qed.

Lemma scenario_factions :
  re_findall FACTION_PAT scenario_text = [lit "Alliance"].
Proof. vm_compute. reflexivity. Qed.

Lemma scenario_systems :
  re_findall SYSTEM_PAT scenario_text
  = [lit "Sector Alpha was claimed by the Alliance on 2024-03-01";
     lit "Expansion continued"].
Proof. vm_compute. reflexivity. Qed.

Lemma main_scenario o :
  main o [Some scenario_text]
  = Some ([tag o 0 {| w_page := 1; w_text := scenario_text |}],
          index_of o [tag o 0 {| w_page := 1; w_text := scenario_text |}]).
Proof.
  destruct (main_windows o [Some scenario_text]) as (ws & Hws & ->).
  rewrite scenario_windows in Hws. by injection Hws as <-.
Qed.

(** C8. The scenario page gives one chunk, with id 0 on page 1, whose
    dates are exactly "2024-03-01" and whose factions are exactly
    "Alliance"; in every run the three entity lists of a chunk are
    duplicate-free and hold exactly the matches of their pattern in the
    chunk text. *)
Theorem C8_scenario_entities (o : SetOrder) :
  (∃ c index,
     main o [Some scenario_text] = Some ([c], index) ∧
     c_id c = 0 ∧ c_page c = 1 ∧ c_text c = scenario_text ∧
     c_dates c = [lit "2024-03-01"] ∧
     c_factions c = [lit "Alliance"]) ∧
  ∀ pages, ∃ chunks index,
    main o pages = Some (chunks, index) ∧
    Forall (λ c,
      NoDup (c_systems c) ∧ NoDup (c_factions c) ∧ NoDup (c_dates c) ∧
      (∀ x, x ∈ c_systems c ↔ x ∈ re_findall SYSTEM_PAT (c_text c)) ∧
      (∀ x, x ∈ c_factions c ↔ x ∈ re_findall FACTION_PAT (c_text c)) ∧
      (∀ x, x ∈ c_dates c ↔ x ∈ re_findall DATE_PAT (c_text c))) chunks.
Proof.
  split.
  - eexists _, _. split; [apply main_scenario|]. simpl.
    rewrite scenario_dates, scenario_factions, !set_list_singleton. done.
  - intros pages. destruct (main_windows o pages) as (ws & _ & Hmain).
    eexists _, _. split; [exact Hmain|].
    apply Forall_lookup. intros k c (w & _ & ->)%imap_tag_lookup. simpl.
    split_and!; try apply set_list_NoDup; intros x; apply set_list_elem.
Qed.

(** ** Two runs on the same pages *)

Lemma main_scenario_store o :
  run_chunk_store o [Some scenario_text]
  = Some (chunk_store [tag o 0 {| w_page := 1; w_text := scenario_text |}]).
Proof. unfold run_chunk_store. by rewrite main_scenario. Qed.

Lemma doc_freq_texts cs1 cs2 w :
  map c_text cs1 = map c_text cs2 → doc_freq cs1 w = doc_freq cs2 w.
Proof.
  revert cs2. induction cs1 as [|c1 cs1 IH]; intros [|c2 cs2] Ht;
    simplify_eq/=; [done|].
  rewrite !doc_freq_cons. f_equal; [|by apply IH].
  repeat case_decide; congruence.
Qed.

Lemma tag_equiv o1 o2 n w : chunk_equiv (tag o1 n w) (tag o2 n w).
Proof.
  unfold chunk_equiv. simpl. split_and!; try done;
    apply set_list_Permutation.
Qed.

Lemma tag_ext o1 o2 n w :
  (∀ l, set_list o1 l = set_list o2 l) → tag o1 n w = tag o2 n w.
Proof. intros H. unfold tag. by rewrite !H. Qed.

Lemma build_df_ext o1 o2 cs :
  (∀ l, set_list o1 l = set_list o2 l) → build_df o1 cs = build_df o2 cs.
Proof.
  intros H. unfold build_df. generalize ([] : dict nat).
  induction cs as [|c cs IH]; intros df; simpl; [done|].
  rewrite IH. f_equal. unfold df_add. by rewrite H.
Qed.

Lemma build_df_keys_elem o cs w :
  w ∈ dict_keys (build_df o cs) ↔ 1 ≤ doc_freq cs w.
Proof.
  rewrite <-dict_get_keys, build_df_get. unfold freq_entry.
  case_decide; split; intros H'; try done; try lia.
Qed.

(** C2, as stated, fails: on the scenario page, a run whose sets iterate
    in one order and a run whose sets iterate in the reverse order write
    different chunk stores (the two system names of the chunk are
    swapped). *)
Lemma C2_chunk_store_depends_on_set_order :
  run_chunk_store order_fwd [Some scenario_text]
  ≠ run_chunk_store order_rev [Some scenario_text].
Proof.
  rewrite !main_scenario_store. intros H. vm_compute in H. discriminate H.
Qed.

(** C2, amended. Two runs on the same pages produce the same number N of
    chunks, with pairwise the same id, page and text and the same
    elements in each entity list, and the same idf weight for every
    token, over the same set of keys; the runs can differ only in the
    order of the elements of an entity list and of the keys of the idf
    mapping. Two runs whose sets iterate in the same order produce the
    same chunks, the same index and the same chunk store. *)
Theorem C2_runs_agree_up_to_set_order
    (o1 o2 : SetOrder) (pages : list (option str)) :
  ∃ cs1 i1 cs2 i2,
    main o1 pages = Some (cs1, i1) ∧
    main o2 pages = Some (cs2, i2) ∧
    Forall2 chunk_equiv cs1 cs2 ∧
    N i1 = N i2 ∧
    (∀ w, dict_get (idf i1) w = dict_get (idf i2) w) ∧
    dict_keys (idf i1) ≡ₚ dict_keys (idf i2) ∧
    ((∀ l, set_list o1 l = set_list o2 l) →
     cs1 = cs2 ∧ i1 = i2 ∧ chunk_store cs1 = chunk_store cs2).
Proof.
  destruct (main_windows o1 pages) as (ws & Hws & Hmain1).
  destruct (main_windows o2 pages) as (ws' & Hws' & Hmain2).
  assert (ws' = ws) as -> by congruence.
  eexists _, _, _, _. split; [exact Hmain1|]. split; [exact Hmain2|].
  assert (map c_text (imap (tag o1) ws) = map c_text (imap (tag o2) ws))
    as Htexts by by rewrite !(imap_tag_texts _ 0).
  split_and!.
  - apply Forall2_same_length_lookup_2; [by rewrite !length_imap|].
    intros k c1 c2 (w1 & Hw1 & ->)%imap_tag_lookup
      (w2 & Hw2 & ->)%imap_tag_lookup.
    assert (w2 = w1) as -> by congruence. apply tag_equiv.
  - simpl. by rewrite !length_imap.
  - intros w. rewrite !idf_index_get, !length_imap.
    by rewrite (doc_freq_texts _ _ w Htexts).
  - simpl. rewrite !build_idf_keys.
    apply NoDup_Permutation; try apply build_df_keys_NoDup.
    intros w. rewrite !build_df_keys_elem.
    by rewrite (doc_freq_texts _ _ w Htexts).
  - intros Hsame.
    assert (imap (tag o1) ws = imap (tag o2) ws) as Hcs.
    { apply imap_ext. intros k w _. by apply tag_ext. }
    rewrite Hcs. split_and!; [done| |done].
    unfold index_of. by rewrite (build_df_ext o1 o2).
Qed.

(** ** The model on concrete inputs *)

Example clean_collapses_whitespace :
  clean (Some (lit "  LTT 9810   is    held.  ")) = lit "LTT 9810 is held.".
Proof. vm_compute. reflexivity. Qed.

Example clean_of_nothing : clean None = [] ∧ clean (Some (lit "   ")) = [].
Proof. split; vm_compute; reflexivity. Qed.

Example toks_of_sentence :
  toks (Some (lit "The well-known Empire, as of 2024-03-01: it is big"))
  = [lit "the"; lit "well-known"; lit "empire"; lit "2024-03-01"; lit "big"].
Proof. vm_compute. reflexivity. Qed.

Example findall_systems :
  re_findall SYSTEM_PAT (lit "at LTT-12345 and LTT 9810x Col Sector AB-1 c")
  = [lit "LTT-12345"; lit "LTT 9810"; lit "Col Sector AB-1 "].
Proof. vm_compute. reflexivity. Qed.

Example findall_dates :
  re_findall DATE_PAT
    (lit "On March 5, 2024 and x2024-01-01 and 2024-01-011 Jan  12,  2031.")
  = [lit "March 5, 2024"; lit "Jan  12,  2031"].
Proof. vm_compute. reflexivity. Qed.

Example spans_with_sentence_snap :
  chunk_spans (repeat "a"%char 890 ++ lit "bbbbbbbbbbbbbbbb. ccc"
               ++ repeat "a"%char 1000)
  = Some [(0, 908); (758, 1658); (1508, 1911)].
Proof. vm_compute. reflexivity. Qed.

Example df_counts_chunks_not_occurrences :
  build_df order_fwd
    [tag order_fwd 0 {| w_page := 1; w_text := lit "empire empire empire" |};
     tag order_fwd 1 {| w_page := 1; w_text := lit "the empire" |}]
  = [(lit "empire", 2); (lit "the", 1)].
Proof. vm_compute. reflexivity. Qed.

(** ** The claims at concrete inputs *)

Lemma C3_scenario_1000 :
  chunk_spans (clean (Some (repeat "a"%char 1000)))
  = Some [(0, 900); (750, 1000)].
Proof.
  destruct (C3_windows_cover_text (Some (repeat "a"%char 1000)) 1)
    as (sp & Hsp & _ & _ & _ & _ & _ & _ & Hscenario).
  rewrite Hsp. f_equal. apply Hscenario; vm_compute; reflexivity.
Defined.

Lemma C5_short_page :
  chunk (Some (lit "  Empire   and Alliance ")) 3
  = Some [{| w_page := 3;
             w_text := clean (Some (lit "  Empire   and Alliance ")) |}] ∧
  chunk (Some (lit "   ")) 3 = Some [].
Proof.
  split.
  - apply (proj1 (C5_short_text_one_window
                    (Some (lit "  Empire   and Alliance ")) 3)).
    + vm_compute. discriminate.
    + apply Nat.ltb_lt. vm_compute. reflexivity.
  - apply (proj2 (C5_short_text_one_window (Some (lit "   ")) 3)).
    vm_compute. reflexivity.
Defined.

Lemma C9_blank_second_page :
  ∃ chunks index,
    main order_fwd [Some (lit "Empire."); None; Some (lit "Alliance.")]
    = Some (chunks, index) ∧
    Forall (λ c, c_page c ≠ 2) chunks.
Proof.
  destruct (C9_empty_page_contributes_nothing order_fwd
              [Some (lit "Empire.")] [Some (lit "Alliance.")] None)
    as (_ & chunks & index & _ & Hmain & _ & Hpage & _).
  - reflexivity.
  - exists chunks, index. split; [exact Hmain|exact Hpage].
Defined.

Lemma C10_two_iterations :
  chunk_loop 2 (clean (Some (repeat "a"%char 1000))) 1 0 []
  = chunk (Some (repeat "a"%char 1000)) 1.
Proof.
  destruct (C10_chunk_terminates (Some (repeat "a"%char 1000)) 1)
    as (_ & _ & ws & -> & Hfuel).
  apply Hfuel. apply Nat.ltb_lt. vm_compute. reflexivity.
Defined.

(** * Further properties of the program *)

(** ** [clean] joins the words of the text with single spaces *)

Lemma ws_run_le s : ws_run s ≤ length s.
Proof. induction s as [|c s IH]; simpl; [lia|]. destruct (is_space c); lia. Qed.

Lemma lstrip_drop s : lstrip s = drop (ws_run s) s.
Proof. induction s as [|c s IH]; simpl; [done|]. by destruct (is_space c). Qed.

Lemma squeeze_true s : squeeze true s = squeeze false (lstrip s).
Proof.
  induction s as [|c s IH]; simpl; [done|].
  destruct (is_space c) eqn:Hc; [done|]. simpl. by rewrite Hc.
Qed.

Lemma rep_ws_accept lo prev s :
  rep_match is_space lo None prev s accept
  = if decide (lo ≤ ws_run s) then Some (ws_run s) else None.
Proof.
  revert lo prev. induction s as [|c s IH]; intros lo prev.
  - cbn [rep_match ws_run]. destruct lo; [done|].
    cbn [Nat.eqb]. case_decide; [lia|done].
  - cbn [rep_match ws_run]. destruct (is_space c); cbn [andb hi_allows].
    + rewrite IH. destruct (decide (Nat.pred lo ≤ ws_run s)); cbn [fmap option_fmap option_map].
      * case_decide; [done|lia].
      * destruct lo; [simpl in *; lia|]. cbn [Nat.eqb].
        case_decide; [simpl in *; lia|done].
    + destruct lo; [done|]. cbn [Nat.eqb]. case_decide; [lia|done].
Qed.

Lemma sub_from_ws fuel prev s :
  length s < fuel → sub_from fuel WS_RUN [" "%char] prev s = squeeze false s.
Proof.
  revert prev s. induction fuel as [|fuel IH]; intros prev s Hf; [lia|].
  unfold sub_from; fold sub_from. unfold match_here, WS_RUN.
  cbn [re_match]. rewrite rep_ws_accept.
  destruct s as [|c s]; [done|]. cbn [ws_run squeeze].
  destruct (is_space c) eqn:Hc.
  - rewrite decide_True by lia. simpl in Hf.
    pose proof (ws_run_le s). rewrite IH.
    + cbn [app drop]. by rewrite squeeze_true, lstrip_drop.
    + cbn [drop]. rewrite length_drop. lia.
  - rewrite decide_False by lia. simpl in Hf. rewrite IH by lia. done.
Qed.

Lemma re_sub_ws s : re_sub WS_RUN (lit " ") s = squeeze false s.
Proof. apply sub_from_ws. lia. Qed.

Lemma lstrip_all_space u : forallb is_space u = true → lstrip u = [].
Proof.
  induction u as [|c u IH]; simpl; [done|].
  destruct (is_space c); simpl; [done|discriminate].
Qed.

Lemma lstrip_app u v :
  lstrip (u ++ v) = if forallb is_space u then lstrip v else lstrip u ++ v.
Proof.
  induction u as [|c u IH]; simpl; [done|].
  by destruct (is_space c).
Qed.

Lemma lstrip_length s : length (lstrip s) ≤ length s.
Proof. rewrite lstrip_drop, length_drop. lia. Qed.

Lemma lstrip_head s d u : lstrip s = d :: u → is_space d = false.
Proof.
  induction s as [|c s IH]; simpl; [done|].
  destruct (is_space c) eqn:Hc; [done|]. by intros [= <- _].
Qed.

Lemma forallb_reverse (f : ascii → bool) l :
  forallb f (reverse l) = forallb f l.
Proof.
  induction l as [|x l IH]; [done|].
  rewrite reverse_cons, forallb_app, IH. simpl. rewrite andb_true_r.
  apply andb_comm.
Qed.

Lemma rstrip_nil : rstrip [] = [].
Proof. done. Qed.

Lemma rstrip_cons c t :
  rstrip (c :: t) = if forallb is_space (c :: t) then [] else c :: rstrip t.
Proof.
  unfold rstrip. rewrite reverse_cons, lstrip_app, forallb_reverse.
  cbn [forallb]. destruct (forallb is_space t) eqn:Ht.
  - rewrite andb_true_r. cbn [lstrip].
    rewrite (lstrip_all_space (reverse t)) by by rewrite forallb_reverse.
    by destruct (is_space c).
  - rewrite andb_false_r. by rewrite reverse_app.
Qed.

Lemma rstrip_snoc_space t d : is_space d = true → rstrip (t ++ [d]) = rstrip t.
Proof.
  intros Hd. unfold rstrip. rewrite reverse_app. simpl. by rewrite Hd.
Qed.

Lemma rstrip_no_space cur :
  Forall (λ c, is_space c = false) cur → rstrip cur = cur.
Proof.
  induction 1 as [|c cur Hc _ IH]; [done|].
  rewrite rstrip_cons. cbn [forallb]. by rewrite Hc, IH.
Qed.

Lemma rstrip_app_keep a x :
  forallb is_space x = false → rstrip (a ++ x) = a ++ rstrip x.
Proof.
  intros Hx. induction a as [|c a IH]; [done|].
  rewrite <-app_comm_cons, rstrip_cons. cbn [forallb].
  rewrite forallb_app, Hx, andb_false_r, andb_false_r, IH. done.
Qed.

Lemma split_from_nonempty cur s : cur ≠ [] → split_from cur s ≠ [].
Proof.
  revert cur. induction s as [|c s IH]; intros cur Hcur; simpl.
  - by destruct cur.
  - destruct (is_space c).
    + by destruct cur.
    + apply IH. by destruct cur.
Qed.

Lemma split_from_lstrip s : split_from [] s = split_from [] (lstrip s).
Proof.
  induction s as [|c s IH]; simpl; [done|].
  destruct (is_space c) eqn:Hc; [done|]. simpl. by rewrite Hc.
Qed.

Lemma join_cons sep x y l :
  join sep (x :: y :: l) = x ++ sep ++ join sep (y :: l).
Proof. done. Qed.

Lemma split_from_end cur : cur ≠ [] → split_from cur [] = [cur].
Proof. by destruct cur. Qed.

Lemma split_from_space cur c s :
  is_space c = true → cur ≠ [] →
  split_from cur (c :: s) = cur :: split_from [] s.
Proof. intros Hc Hcur. simpl. rewrite Hc. by destruct cur. Qed.

Lemma split_from_char cur c s :
  is_space c = false → split_from cur (c :: s) = split_from (cur ++ [c]) s.
Proof. intros Hc. simpl. by rewrite Hc. Qed.

Lemma squeeze_space c s :
  is_space c = true →
  squeeze false (c :: s) = " "%char :: squeeze false (lstrip s).
Proof. intros Hc. simpl. by rewrite Hc, squeeze_true. Qed.

Lemma squeeze_char c s :
  is_space c = false → squeeze false (c :: s) = c :: squeeze false s.
Proof. intros Hc. simpl. by rewrite Hc. Qed.

Lemma rstrip_squeeze n s cur :
  length s ≤ n → cur ≠ [] → Forall (λ c, is_space c = false) cur →
  rstrip (cur ++ squeeze false s) = join [" "%char] (split_from cur s).
Proof.
  revert s cur. induction n as [|n IH]; intros s cur Hn Hne Hcur.
  { destruct s; [|simpl in Hn; lia].
    rewrite split_from_end by done. simpl.
    by rewrite app_nil_r, rstrip_no_space. }
  destruct s as [|c s].
  { rewrite split_from_end by done. simpl.
    by rewrite app_nil_r, rstrip_no_space. }
  simpl in Hn. destruct (is_space c) eqn:Hc.
  - rewrite squeeze_space, split_from_space by done.
    rewrite split_from_lstrip. pose proof (lstrip_length s).
    destruct (lstrip s) as [|d u] eqn:Hu.
    + simpl. rewrite rstrip_snoc_space by done. by apply rstrip_no_space.
    + pose proof (lstrip_head _ _ _ Hu) as Hd.
      rewrite squeeze_char, split_from_char by done.
      rewrite (cons_middle " "%char cur), app_assoc.
      rewrite rstrip_app_keep by (simpl; by rewrite Hd).
      change (d :: squeeze false u) with ([d] ++ squeeze false u).
      rewrite (IH u [d]); [|simpl in *; lia|done|by constructor].
      change ([] ++ [d]) with [d].
      destruct (split_from [d] u) as [|x l] eqn:Hsp.
      { by apply split_from_nonempty in Hsp. }
      rewrite join_cons, <-app_assoc. done.
  - rewrite squeeze_char, split_from_char by done.
    rewrite cons_middle, app_assoc. apply IH; [lia| |].
    + by destruct cur.
    + apply Forall_app. split; [done|]. by constructor.
Qed.

Lemma lstrip_space c s : is_space c = true → lstrip (c :: s) = lstrip s.
Proof. intros Hc. simpl. by rewrite Hc. Qed.

Lemma lstrip_char c s : is_space c = false → lstrip (c :: s) = c :: s.
Proof. intros Hc. simpl. by rewrite Hc. Qed.

Lemma lstrip_squeeze s : lstrip (squeeze false s) = squeeze false (lstrip s).
Proof.
  induction s as [|c s IH]; [done|].
  destruct (is_space c) eqn:Hc.
  - rewrite squeeze_space, !lstrip_space by done.
    destruct (lstrip s) as [|d u] eqn:Hu; [done|].
    pose proof (lstrip_head _ _ _ Hu) as Hd.
    rewrite squeeze_char by done. by apply lstrip_char.
  - rewrite squeeze_char, !lstrip_char by done. symmetry. by apply squeeze_char.
Qed.

Lemma strip_squeeze s :
  strip (squeeze false s) = join [" "%char] (split s).
Proof.
  unfold strip. fold (rstrip (lstrip (squeeze false s))).
  rewrite lstrip_squeeze. unfold split. rewrite split_from_lstrip.
  destruct (lstrip s) as [|d u] eqn:Hu; [done|].
  pose proof (lstrip_head _ _ _ Hu) as Hd.
  rewrite squeeze_char, split_from_char by done.
  apply (rstrip_squeeze (length u) u [d]); [done|done|by constructor].
Qed.

Lemma clean_join_split s :
  clean s = join [" "%char] (split (or_empty s)).
Proof. unfold clean. by rewrite re_sub_ws, strip_squeeze. Qed.

Lemma split_from_words cur s :
  Forall (λ c, is_space c = false) cur →
  Forall is_word_str (split_from cur s).
Proof.
  revert cur. induction s as [|c s IH]; intros cur Hcur.
  - destruct cur as [|c0 cur]; [constructor|].
    rewrite split_from_end by done. constructor; [by split|constructor].
  - destruct (is_space c) eqn:Hc.
    + destruct cur as [|c0 cur].
      * simpl. rewrite Hc. by apply IH.
      * rewrite split_from_space by done. constructor; [by split|].
        by apply IH.
    + rewrite split_from_char by done. apply IH.
      apply Forall_app. split; [done|]. by constructor.
Qed.

Lemma split_words s : Forall is_word_str (split s).
Proof. by apply split_from_words. Qed.

Lemma split_from_word cur w rest :
  Forall (λ c, is_space c = false) w →
  split_from cur (w ++ rest) = split_from (cur ++ w) rest.
Proof.
  intros Hw. revert cur. induction Hw as [|c w Hc _ IH]; intros cur.
  - by rewrite app_nil_r.
  - rewrite <-app_comm_cons, split_from_char by done.
    by rewrite IH, <-app_assoc.
Qed.

Lemma split_from_word_end cur w :
  Forall (λ c, is_space c = false) w →
  split_from cur w = split_from (cur ++ w) [].
Proof.
  intros Hw. pose proof (split_from_word cur w [] Hw) as H.
  by rewrite app_nil_r in H.
Qed.

Lemma split_join ws :
  Forall is_word_str ws → split (join [" "%char] ws) = ws.
Proof.
  unfold split. induction 1 as [|w ws [Hne Hw] Hws IH]; [done|].
  destruct ws as [|y l].
  - simpl. rewrite split_from_word_end by done.
    by apply split_from_end.
  - rewrite join_cons, split_from_word by done.
    change ([" "%char] ++ join [" "%char] (y :: l))
      with (" "%char :: join [" "%char] (y :: l)).
    rewrite split_from_space by done. by rewrite IH.
Qed.

Lemma concat_split_from cur s :
  concat (split_from cur s) = cur ++ filter (λ c, is_space c = false) s.
Proof.
  unfold str. revert cur. induction s as [|c s IH]; intros cur.
  - destruct cur; [done|]. rewrite split_from_end by done. simpl.
    by rewrite !app_nil_r.
  - rewrite filter_cons. destruct (is_space c) eqn:Hc.
    + rewrite decide_False by done. destruct cur as [|c0 cur].
      * simpl. rewrite Hc. apply IH.
      * rewrite split_from_space by done. simpl. by rewrite IH.
    + rewrite decide_True by done. rewrite split_from_char by done.
      by rewrite IH, <-app_assoc.
Qed.

Lemma filter_join_words ws :
  Forall is_word_str ws →
  filter (λ c, is_space c = false) (join [" "%char] ws : list ascii)
  = concat ws.
Proof.
  assert (∀ w : list ascii, Forall (λ c, is_space c = false) w →
               filter (λ c, is_space c = false) w = w) as Hfw.
  { induction 1 as [|c w Hc _ IH]; [done|].
    by rewrite filter_cons, decide_True, IH. }
  induction 1 as [|w ws [Hne Hw] Hws IH]; [done|].
  destruct ws as [|y l].
  - simpl. by rewrite app_nil_r, Hfw.
  - rewrite join_cons, !filter_app, Hfw by done.
    rewrite IH. done.
Qed.

(** ** The shape of a cleaned text *)

Lemma single_spaced_word_app w rest :
  Forall (λ c, is_space c = false) w → single_spaced rest →
  single_spaced (w ++ rest).
Proof.
  intros Hw Hrest. induction Hw as [|c w Hc _ IH]; [done|].
  simpl. split; [|done]. intros Hs. congruence.
Qed.

Lemma single_spaced_join ws :
  Forall is_word_str ws → single_spaced (join [" "%char] ws).
Proof.
  induction 1 as [|w ws [Hne Hw] Hws IH]; [done|].
  destruct ws as [|y l].
  - simpl. rewrite <-(app_nil_r w). by apply single_spaced_word_app.
  - rewrite join_cons. apply single_spaced_word_app; [done|].
    simpl app. split; [|done]. intros _. split; [done|].
    apply Forall_cons in Hws as [[Hy Hys] _].
    destruct y as [|d y]; [done|]. apply Forall_cons in Hys as [Hd _].
    destruct l; simpl; done.
Qed.

Lemma single_spaced_tail c s : single_spaced (c :: s) → single_spaced s.
Proof. by intros [_ ?]. Qed.

Lemma single_spaced_drop n s : single_spaced s → single_spaced (drop n s).
Proof.
  revert s. induction n as [|n IH]; intros [|c s] Hs; try done.
  simpl. apply IH. by apply single_spaced_tail in Hs.
Qed.

Lemma single_spaced_take n s : single_spaced s → single_spaced (take n s).
Proof.
  revert s. induction n as [|n IH]; intros [|c s] Hs; try done.
  destruct Hs as [Hc Hs]. simpl. split; [|by apply IH].
  intros Hsp. destruct (Hc Hsp) as [-> Hnext]. split; [done|].
  destruct n, s; simpl in *; done.
Qed.

Lemma single_spaced_lookup s k c :
  single_spaced s → s !! k = Some c → is_space c = true →
  c = " "%char ∧ ∀ d, s !! S k = Some d → is_space d = false.
Proof.
  revert k. induction s as [|x s IH]; intros k Hs Hk Hc; [done|].
  destruct Hs as [Hx Hs]. destruct k as [|k]; simplify_eq/=.
  - destruct (Hx Hc) as [-> Hn]. split; [done|]. intros d Hd.
    destruct s; simplify_eq/=. done.
  - by apply IH.
Qed.

Lemma join_words_ends ws c :
  Forall is_word_str ws →
  (head (join [" "%char] ws) = Some c → is_space c = false) ∧
  (last (join [" "%char] ws) = Some c → is_space c = false).
Proof.
  induction 1 as [|w ws [Hne Hw] Hws IH]; [done|].
  assert (∃ d w', w = d :: w' ∧ is_space d = false) as (d & w' & -> & Hd).
  { destruct w as [|d w']; [done|]. apply Forall_cons in Hw as [? _]. eauto. }
  destruct ws as [|y l].
  - split; simpl.
    + by intros [= <-].
    + intros Hl. apply last_Some in Hl as [l' Hl].
      rewrite Hl in Hw. apply Forall_app in Hw as [_ Hw].
      by apply Forall_cons in Hw as [? _].
  - rewrite join_cons. split.
    + simpl. by intros [= <-].
    + rewrite app_assoc. destruct IH as [_ IH].
      destruct (join [" "%char] (y :: l)) as [|z t] eqn:Hj.
      { apply Forall_cons in Hws as [[Hy _] _].
        destruct y, l; simpl in Hj; try done; by destruct y. }
      rewrite <-Hj in *. intros Hl. apply IH.
      rewrite Hj in *. by rewrite last_app_cons in Hl.
Qed.

Lemma squeeze_length b s : length (squeeze b s) ≤ length s.
Proof.
  revert b. induction s as [|c s IH]; intros b; simpl; [done|].
  pose proof (IH true). pose proof (IH false).
  destruct (is_space c), b; simpl; lia.
Qed.

Lemma strip_length t : length (strip t) ≤ length t.
Proof.
  unfold strip. rewrite length_reverse.
  etrans; [apply lstrip_length|]. rewrite length_reverse.
  apply lstrip_length.
Qed.

(** [clean] is [" ".join(s.split())]: the words of the text, which are
    not empty and hold no whitespace, with one space between neighbours. *)
Theorem clean_joins_words (s : option str) :
  clean s = join [" "%char] (split (or_empty s)) ∧
  Forall is_word_str (split (or_empty s)).
Proof. split; [apply clean_join_split|apply split_words]. Qed.

(** Cleaning a cleaned text changes nothing, so [chunk] gives the same
    windows for a text and for its cleaned form. *)
Theorem clean_idempotent (s : option str) (page : nat) :
  clean (Some (clean s)) = clean s ∧
  chunk (Some (clean s)) page = chunk s page.
Proof.
  assert (clean (Some (clean s)) = clean s) as Hid.
  { rewrite (clean_join_split (Some _)). simpl.
    rewrite clean_join_split, split_join; [done|apply split_words]. }
  split; [done|]. unfold chunk. by rewrite Hid.
Qed.

(** A cleaned text neither starts nor ends with whitespace, and each of
    its whitespace characters is a space that stands between two
    characters that are not whitespace. *)
Theorem clean_single_spaced (s : option str) :
  let t := clean s in
  (∀ c, head t = Some c → is_space c = false) ∧
  (∀ c, last t = Some c → is_space c = false) ∧
  (∀ k c, t !! k = Some c → is_space c = true →
     c = " "%char ∧
     (∃ k' b, k = S k' ∧ t !! k' = Some b ∧ is_space b = false) ∧
     (∃ d, t !! S k = Some d ∧ is_space d = false)).
Proof.
  intros t. unfold t. rewrite clean_join_split.
  set (ws := split (or_empty s)). pose proof (split_words (or_empty s)) as Hws.
  fold ws in Hws. set (u := join [" "%char] ws).
  pose proof (single_spaced_join ws Hws) as Hss. fold u in Hss.
  assert (∀ c, head u = Some c → is_space c = false) as Hhead.
  { intros c. by apply join_words_ends. }
  assert (∀ c, last u = Some c → is_space c = false) as Hlast.
  { intros c. by apply join_words_ends. }
  split; [done|]. split; [done|].
  intros k c Hk Hc.
  destruct (single_spaced_lookup u k c Hss Hk Hc) as [-> Hnext].
  split; [done|]. split.
  - destruct k as [|k'].
    { assert (head u = Some " "%char) as Hh
        by (rewrite head_lookup; exact Hk).
      apply Hhead in Hh. congruence. }
    destruct (u !! k') as [b|] eqn:Hb.
    2:{ apply lookup_ge_None in Hb. apply lookup_lt_Some in Hk. lia. }
    exists k', b. split; [done|]. split; [done|].
    destruct (is_space b) eqn:Hsb; [|done].
    destruct (single_spaced_lookup u k' b Hss Hb Hsb) as [_ Hn].
    apply Hn in Hk. congruence.
  - destruct (u !! S k) as [d|] eqn:Hd; [eauto|].
    apply lookup_ge_None in Hd. pose proof (lookup_lt_Some _ _ _ Hk).
    assert (last u = Some " "%char) as Hl.
    { rewrite last_lookup. replace (Nat.pred (length u)) with k by lia.
      exact Hk. }
    apply Hlast in Hl. congruence.
Qed.

(** Cleaning keeps the characters that are not whitespace, in order, and
    never makes a text longer. *)
Theorem clean_keeps_characters (s : option str) :
  filter (λ c, is_space c = false) (clean s : list ascii)
  = filter (λ c, is_space c = false) (or_empty s : list ascii) ∧
  length (clean s) ≤ length (or_empty s).
Proof.
  split.
  - rewrite clean_join_split, filter_join_words by apply split_words.
    unfold split. by rewrite concat_split_from.
  - unfold clean. rewrite re_sub_ws.
    etrans; [apply strip_length|apply squeeze_length].
Qed.

(** ** Sizes, number and overlap of the windows *)

Lemma windows_drop text i sp k a e :
  windows text i sp → sp !! k = Some (a, e) → windows text a (drop k sp).
Proof.
  intros Hw. revert k. induction Hw as [i Hi He|i rest Hi He Hw IH];
    intros k Hk.
  - destruct k as [|k]; [|done]. simplify_eq/=. by constructor.
  - destruct k as [|k]; simplify_eq/=; [by constructor|]. by apply IH.
Qed.

Lemma windows_starts text i sp k a e :
  windows text i sp → sp !! k = Some (a, e) →
  i + 750 * k ≤ a ∧ a ≤ i + 870 * k.
Proof.
  intros Hw. revert k. induction Hw as [i Hi He|i rest Hi He Hw IH];
    intros k Hk.
  - destruct k as [|k]; [|done]. simplify_eq/=. lia.
  - destruct k as [|k]; simplify_eq/=; [lia|].
    specialize (IH _ Hk).
    pose proof (window_end_continue text i He).
    pose proof (window_end_bounds text i).
    unfold CHUNK_SIZE, OVERLAP in *. lia.
Qed.

Lemma windows_apart text i sp k j a1 e1 a2 e2 :
  windows text i sp → k + 2 ≤ j →
  sp !! k = Some (a1, e1) → sp !! j = Some (a2, e2) → e1 + 600 ≤ a2.
Proof.
  intros Hw Hkj H1 H2.
  destruct (sp !! S k) as [[a' e']|] eqn:H'.
  2:{ apply lookup_ge_None in H'. apply lookup_lt_Some in H2. lia. }
  destruct (windows_consecutive _ _ _ Hw _ _ _ _ _ H1 H') as (Ha & _).
  pose proof (windows_drop _ _ _ _ _ _ Hw H') as Hd.
  assert (drop (S k) sp !! (j - S k) = Some (a2, e2)) as Hj.
  { rewrite lookup_drop. by replace (S k + (j - S k)) with j by lia. }
  destruct (windows_starts _ _ _ _ _ _ Hd Hj) as [Hlo _].
  unfold OVERLAP in *.
  assert (750 * 1 ≤ 750 * (j - S k)) by (apply Nat.mul_le_mono_l; lia).
  lia.
Qed.

Lemma windows_nonempty text i sp : windows text i sp → sp ≠ [].
Proof. by destruct 1. Qed.

Lemma windows_last_span text i sp :
  windows text i sp → ∃ a, last sp = Some (a, length text).
Proof.
  induction 1 as [i Hi He|i rest Hi He Hw [a IH]].
  - exists i. pose proof (window_end_bounds text i). simpl. do 2 f_equal. lia.
  - exists a. destruct rest; [by apply windows_nonempty in Hw|].
    by rewrite last_cons_cons.
Qed.

(** No window is empty, every window carries the page number passed in,
    and every window but the last holds at least [CHUNK_SIZE] characters. *)
Theorem chunk_window_sizes (raw : option str) (page : nat) :
  ∃ ws,
    chunk raw page = Some ws ∧
    Forall (λ w, w_text w ≠ [] ∧ w_page w = page) ws ∧
    (∀ k w, ws !! k = Some w → S k < length ws →
            CHUNK_SIZE ≤ length (w_text w)).
Proof.
  destruct (chunk_spans_result raw page) as (sp & Hsp & Hch & Hw).
  eexists. split; [exact Hch|].
  case_decide as Ht; [subst sp; split; [constructor|done]|].
  split.
  - apply Forall_map, Forall_lookup. intros k [a e] Hk. simpl.
    split; [|done].
    destruct (windows_span _ _ _ Hw _ _ _ Hk) as (_ & ? & ? & _).
    intros Hnil. apply (f_equal length) in Hnil.
    rewrite length_slice in Hnil. simpl in Hnil. lia.
  - intros k w Hk Hlen. rewrite length_map in Hlen.
    rewrite list_lookup_fmap in Hk.
    destruct (sp !! k) as [[a e]|] eqn:Hk1; [|done]. simplify_eq/=.
    destruct (sp !! S k) as [[a' e']|] eqn:Hk2.
    2:{ apply lookup_ge_None in Hk2. lia. }
    destruct (windows_consecutive _ _ _ Hw _ _ _ _ _ Hk1 Hk2)
      as (_ & ? & ? & _).
    rewrite length_slice. lia.
Qed.

(** The number n of windows of a page with a normalized text of len
    characters: none exactly when the text is empty; otherwise
    [750 * (n - 1) < len <= 870 * n + 150]; a text of at most
    [CHUNK_SIZE] characters gives one window, a text of more than
    [CHUNK_SIZE + 120] characters at least two. *)
Theorem chunk_window_count (raw : option str) (page : nat) :
  ∃ ws,
    chunk raw page = Some ws ∧
    (ws = [] ↔ clean raw = []) ∧
    (ws ≠ [] → 750 * (length ws - 1) < length (clean raw)) ∧
    length (clean raw) ≤ 870 * length ws + 150 ∧
    (length (clean raw) ≤ CHUNK_SIZE → length ws ≤ 1) ∧
    (CHUNK_SIZE + 120 < length (clean raw) → 2 ≤ length ws).
Proof.
  destruct (chunk_spans_result raw page) as (sp & Hsp & Hch & Hw).
  eexists. split; [exact Hch|].
  case_decide as Ht.
  { subst sp. rewrite Ht. simpl. split_and!; try done; lia. }
  set (text := clean raw) in *.
  assert (length (map (window_of text page) sp) = length sp) as Hlen
    by apply length_map.
  rewrite Hlen.
  destruct (windows_last_span _ _ _ Hw) as [a Hlast].
  rewrite last_lookup in Hlast.
  destruct (windows_starts _ _ _ _ _ _ Hw Hlast) as [Hlo Hhi].
  destruct (windows_span _ _ _ Hw _ _ _ Hlast) as (_ & Ha & _ & He & _).
  pose proof (window_end_bounds text a) as Hb.
  pose proof (windows_nonempty _ _ _ Hw) as Hne.
  assert (0 < length sp) by (destruct sp; [done|simpl; lia]).
  replace (Nat.pred (length sp)) with (length sp - 1) in * by lia.
  split_and!.
  - split; [|done]. intros Hnil. destruct sp; [done|discriminate Hnil].
  - intros _. lia.
  - unfold CHUNK_SIZE in *. lia.
  - intros Hshort. destruct Hw as [i Hi Hend|i rest Hi Hend Hrest].
    + simpl. lia.
    + rewrite window_end_last in Hend by lia. lia.
  - unfold CHUNK_SIZE in *. lia.
Qed.

(** Windows that are not neighbours lie at least 600 characters apart,
    so a character of the text lies in at most two windows, and two
    windows that share a character are neighbours. *)
Theorem chunk_windows_overlap_neighbours_only (raw : option str) :
  ∃ sp,
    chunk_spans (clean raw) = Some sp ∧
    (∀ k j a1 e1 a2 e2,
       sp !! k = Some (a1, e1) → sp !! j = Some (a2, e2) →
       k + 2 ≤ j → e1 + 600 ≤ a2) ∧
    (∀ k j a1 e1 a2 e2 p,
       sp !! k = Some (a1, e1) → sp !! j = Some (a2, e2) →
       a1 ≤ p < e1 → a2 ≤ p < e2 → k < j → j = S k).
Proof.
  destruct (chunk_spans_result raw 0) as (sp & Hsp & _ & Hw).
  exists sp. split; [done|].
  case_decide as Ht; [subst sp; split; intros; simplify_eq/=|].
  assert (∀ k j a1 e1 a2 e2,
            sp !! k = Some (a1, e1) → sp !! j = Some (a2, e2) →
            k + 2 ≤ j → e1 + 600 ≤ a2) as Hapart.
  { intros k j a1 e1 a2 e2 H1 H2 Hkj. by eapply windows_apart. }
  split; [done|].
  intros k j a1 e1 a2 e2 p H1 H2 Hp1 Hp2 Hkj.
  destruct (decide (j = S k)) as [|Hne]; [done|].
  specialize (Hapart k j _ _ _ _ H1 H2). lia.
Qed.

(** ** The sentence snap *)

Lemma match_here_sentence_end prev s :
  match_here SENTENCE_END prev s
  = if sentence_end_at s 0 then Some 2 else None.
Proof.
  unfold match_here, SENTENCE_END, sentence_end_at.
  destruct s as [|c [|d s]]; cbn [re_match lookup list_lookup].
  - done.
  - by destruct (one_of ".!?" c).
  - by destruct (one_of ".!?" c), (is_space d).
Qed.

Lemma sentence_end_at_cons c s j :
  sentence_end_at (c :: s) (S j) = sentence_end_at s j.
Proof. done. Qed.

Lemma search_sentence_end prev s pos :
  match search_from SENTENCE_END prev s pos with
  | Some (a, b) =>
      ∃ j, a = pos + j ∧ b = a + 2 ∧ sentence_end_at s j = true ∧
           ∀ j', j' < j → sentence_end_at s j' = false
  | None => ∀ j, sentence_end_at s j = false
  end.
Proof.
  revert prev pos. induction s as [|c s IH]; intros prev pos;
    cbn [search_from]; rewrite match_here_sentence_end.
  - simpl. intros j. by destruct j.
  - destruct (sentence_end_at (c :: s) 0) eqn:H0.
    + exists 0. split_and!; [lia|lia|done|]. intros j' Hj'. lia.
    + specialize (IH (Some c) (S pos)).
      destruct (search_from SENTENCE_END (Some c) s (S pos)) as [[a b]|].
      * destruct IH as (j & -> & -> & Hj & Hmin). exists (S j).
        split_and!; [lia|lia|done|].
        intros [|j'] Hj'; [done|]. rewrite sentence_end_at_cons.
        apply Hmin. lia.
      * intros [|j]; [done|]. rewrite sentence_end_at_cons. apply IH.
Qed.

Lemma lookup_slice s a b j :
  slice s a b !! j = if decide (j < b - a) then s !! (a + j) else None.
Proof.
  unfold slice, str. case_decide.
  - by rewrite lookup_take_lt, lookup_drop.
  - apply lookup_take_ge. lia.
Qed.

Lemma sentence_end_at_slice s a n j :
  sentence_end_at (slice s a (a + n)) j
  = if decide (S j < n) then sentence_end_at s (a + j) else false.
Proof.
  unfold sentence_end_at. rewrite !lookup_slice.
  replace (a + n - a) with n by lia.
  replace (a + S j) with (S (a + j)) by lia.
  repeat case_decide; try lia; try done.
  by destruct (s !! (a + j)).
Qed.

(** The end of a window is its raw cutoff when no sentence end lies
    within the 120 characters behind the cutoff; otherwise it is the
    position right behind the first sentence end there: the window then
    ends with [.], [!] or [?] and one whitespace character. *)
Theorem window_end_sentence_snap (text : str) (i : nat) :
  let cut := (i + CHUNK_SIZE) `min` length text in
  (window_end text i = cut ∧
   ∀ j, cut ≤ j → S j < cut + 120 → sentence_end_at text j = false) ∨
  (∃ j, cut ≤ j ∧ S j < cut + 120 ∧
        sentence_end_at text j = true ∧
        window_end text i = j + 2 ∧
        ∀ j', cut ≤ j' → j' < j → sentence_end_at text j' = false).
Proof.
  intros cut. unfold window_end. fold cut.
  pose proof (search_sentence_end None (slice text cut (cut + 120)) 0) as Hs.
  unfold re_search.
  destruct (search_from SENTENCE_END None (slice text cut (cut + 120)) 0)
    as [[a b]|].
  - right. destruct Hs as (j & -> & -> & Hj & Hmin).
    rewrite sentence_end_at_slice in Hj. case_decide as Hlt; [|done].
    exists (cut + j). split_and!; [lia|lia|done|simpl; lia|].
    intros j' Hlo Hhi. specialize (Hmin (j' - cut)).
    rewrite sentence_end_at_slice, decide_True in Hmin by lia.
    replace (cut + (j' - cut)) with j' in Hmin by lia. apply Hmin. lia.
  - left. split; [done|]. intros j Hlo Hhi. specialize (Hs (j - cut)).
    rewrite sentence_end_at_slice, decide_True in Hs by lia.
    by replace (cut + (j - cut)) with j in Hs by lia.
Qed.

(** ** Where the chunks of a run come from *)

(** In every window text of [chunk], each whitespace character is a
    space and is not followed by another whitespace character. *)
Theorem chunk_texts_single_spaced (raw : option str) (page : nat) :
  ∃ ws,
    chunk raw page = Some ws ∧
    Forall (λ w, ∀ k c,
      w_text w !! k = Some c → is_space c = true →
      c = " "%char ∧ ∀ d, w_text w !! S k = Some d → is_space d = false) ws.
Proof.
  destruct (chunk_spans_result raw page) as (sp & _ & Hch & _).
  eexists. split; [exact Hch|].
  apply Forall_map, Forall_true. intros [a e] k c. simpl.
  apply single_spaced_lookup. unfold slice.
  apply single_spaced_take, single_spaced_drop.
  rewrite clean_join_split. apply single_spaced_join, split_words.
Qed.

Lemma page_windows_origin pages p ws :
  page_windows pages p = Some ws →
  Forall (λ w, ∃ q pg a e,
    w_page w = p + q + 1 ∧ pages !! q = Some pg ∧
    a < e ∧ e ≤ length (clean pg) ∧ w_text w = slice (clean pg) a e) ws.
Proof.
  revert p ws. induction pages as [|pg pages IH]; intros p ws; simpl.
  - intros [= <-]. constructor.
  - destruct (chunk_spans_result (Some (or_empty pg)) (p + 1))
      as (sp & _ & Hch & Hw).
    rewrite Hch. simpl.
    destruct (page_windows pages (S p)) as [wss|] eqn:Hwss; simpl; [|done].
    intros [= <-]. apply Forall_app. split.
    + change (clean (Some (or_empty pg))) with (clean pg) in *.
      case_decide as Ht; [subst sp; constructor|].
      apply Forall_map, Forall_lookup. intros k [a e] Hk. simpl.
      destruct (windows_span _ _ _ Hw _ _ _ Hk) as (_ & ? & ? & _).
      exists 0, pg, a, e. split_and!; try done. lia.
    + eapply Forall_impl; [by apply IH|]. simpl.
      intros w (q & pg' & a & e & Hp & Hq & Hae & He & Ht).
      exists (S q), pg', a, e. split_and!; try done. lia.
Qed.

(** Every chunk of a run carries a page number between 1 and the number
    of pages, and its text is a non-empty piece [text[a:e]] of the
    cleaned text of that page. *)
Theorem run_chunks_come_from_pages
    (o : SetOrder) (pages : list (option str)) :
  ∃ chunks index,
    main o pages = Some (chunks, index) ∧
    Forall (λ c, ∃ pg a e,
      1 ≤ c_page c ∧ c_page c ≤ length pages ∧
      pages !! (c_page c - 1) = Some pg ∧
      a < e ∧ e ≤ length (clean pg) ∧
      c_text c = slice (clean pg) a e) chunks.
Proof.
  destruct (main_windows o pages) as (ws & Hws & Hmain).
  eexists _, _. split; [exact Hmain|].
  apply page_windows_origin in Hws. rewrite Forall_forall in Hws.
  apply Forall_lookup. intros k c (w & Hw & ->)%imap_tag_lookup. simpl.
  apply list_elem_of_lookup_2 in Hw.
  destruct (Hws _ Hw) as (q & pg & a & e & Hp & Hq & Hae & He & Ht).
  pose proof (lookup_lt_Some _ _ _ Hq).
  exists pg, a, e. rewrite Hp.
  replace (0 + q + 1 - 1) with q by lia. split_and!; try done; lia.
Qed.

(** ** Runs over a document put together from two *)

Lemma w_shift_0 w : w_shift 0 w = w.
Proof. by destruct w. Qed.

Lemma page_windows_shift pages p q :
  page_windows pages (q + p) = map (w_shift q) <$> page_windows pages p.
Proof.
  induction q as [|q IH]; simpl.
  - destruct (page_windows pages p) as [ws|]; simpl; [|done].
    f_equal. rewrite <-(list_fmap_id ws) at 1.
    apply list_fmap_ext. intros _ w _. by rewrite w_shift_0.
  - rewrite page_windows_next, IH.
    destruct (page_windows pages p) as [ws|]; simpl; [|done].
    f_equal. rewrite <-list_fmap_compose. by apply list_fmap_ext.
Qed.

Lemma doc_freq_app cs1 cs2 w :
  doc_freq (cs1 ++ cs2) w = doc_freq cs1 w + doc_freq cs2 w.
Proof. unfold doc_freq. by rewrite filter_app, length_app. Qed.

(** ** The range of the weights and the keys of the index *)

Lemma ln_eq_0 (x : R) : (0 < x)%R → ln x = 0%R → x = 1%R.
Proof.
  intros Hx Hln. destruct (Req_dec x 1) as [|Hne]; [done|].
  by destruct (ln_neq_0 x Hne Hx).
Qed.

Lemma idf_weight_eq_1 (n d : nat) : idf_weight n d = 1%R ↔ d = n.
Proof.
  unfold idf_weight. pose proof (pos_INR n). pose proof (pos_INR d). split.
  - intros Hw.
    assert (ln ((INR n + 1) / (INR d + 1)) = 0%R) as Hln by lra.
    apply ln_eq_0 in Hln.
    + apply INR_eq.
      assert ((INR n + 1) = (INR d + 1))%R; [|lra].
      apply (Rmult_eq_reg_r (/ (INR d + 1))).
      * unfold Rdiv in Hln. rewrite Hln, Rinv_r; lra.
      * apply Rinv_neq_0_compat. lra.
    + apply Rdiv_lt_0_compat; lra.
  - intros ->. unfold Rdiv. rewrite Rinv_r by lra. rewrite ln_1. lra.
Qed.

Lemma doc_freq_pos cs w :
  1 ≤ doc_freq cs w ↔ ∃ c, c ∈ cs ∧ w ∈ toks (Some (c_text c)).
Proof.
  unfold doc_freq. split.
  - intros Hlen.
    destruct (filter (λ c, w ∈ toks (Some (c_text c))) cs) as [|c l] eqn:Hf;
      [simpl in Hlen; lia|].
    assert (c ∈ filter (λ c, w ∈ toks (Some (c_text c))) cs) as Hc
      by (rewrite Hf; by left).
    apply list_elem_of_filter in Hc as [? ?]. eauto.
  - intros (c & Hc & Hw).
    assert (c ∈ filter (λ c, w ∈ toks (Some (c_text c))) cs) as Hin
      by by apply list_elem_of_filter.
    destruct (filter (λ c, w ∈ toks (Some (c_text c))) cs);
      [by apply elem_of_nil in Hin|simpl; lia].
Qed.

(** Every weight of the index lies between 1 and [ln((N+1)/2) + 1]; it
    is 1 exactly for a token that occurs in every chunk. *)
Theorem idf_weight_range (o : SetOrder) (pages : list (option str)) :
  ∃ chunks index,
    main o pages = Some (chunks, index) ∧
    ∀ w v, dict_get (idf index) w = Some v →
      (1 <= v)%R ∧
      (v <= ln ((INR (N index) + 1) / 2) + 1)%R ∧
      (v = 1%R ↔ doc_freq chunks w = N index).
Proof.
  destruct (main_windows o pages) as (ws & _ & Hmain).
  eexists _, _. split; [exact Hmain|].
  set (chunks := imap (tag o) ws). intros w v.
  rewrite idf_index_get.
  destruct (freq_entry (doc_freq chunks w)) as [d|] eqn:Hd; [|done].
  simpl. intros [= <-]. apply freq_entry_Some in Hd as [-> Hd].
  pose proof (doc_freq_le chunks w) as Hle.
  split_and!.
  - by apply idf_weight_ge_1.
  - pose proof (idf_weight_anti (length chunks) 1 _ Hd Hle) as Hanti.
    unfold idf_weight in Hanti at 2. simpl INR in Hanti.
    replace (1 + 1)%R with 2%R in Hanti by lra. done.
  - apply idf_weight_eq_1.
Qed.

(** The keys of the idf mapping are pairwise distinct and are exactly
    the tokens of the chunk texts; each key is longer than 2 characters
    and consists of lowercase letters, digits and hyphens. *)
Theorem idf_keys_are_tokens (o : SetOrder) (pages : list (option str)) :
  ∃ chunks index,
    main o pages = Some (chunks, index) ∧
    NoDup (dict_keys (idf index)) ∧
    (∀ w, w ∈ dict_keys (idf index)
          ↔ ∃ c, c ∈ chunks ∧ w ∈ toks (Some (c_text c))) ∧
    Forall (λ w, 2 < length w ∧
                 Forall (λ c, is_lower c || is_digit c
                              || chr_eqb c "-" = true) w)
      (dict_keys (idf index)).
Proof.
  destruct (main_windows o pages) as (ws & _ & Hmain).
  eexists _, _. split; [exact Hmain|].
  set (chunks := imap (tag o) ws). simpl. rewrite build_idf_keys.
  assert (∀ w, w ∈ dict_keys (build_df o chunks)
               ↔ ∃ c, c ∈ chunks ∧ w ∈ toks (Some (c_text c))) as Hkeys.
  { intros w. by rewrite build_df_keys_elem, doc_freq_pos. }
  split_and!; [apply build_df_keys_NoDup|done|].
  apply Forall_forall. intros w (c & _ & Hw)%Hkeys.
  pose proof (toks_Forall (Some (c_text c))) as Ht.
  rewrite Forall_forall in Ht. by apply Ht.
Qed.

(** ** Tokens do not depend on case *)

Lemma lower_chr_idempotent c : lower_chr (lower_chr c) = lower_chr c.
Proof.
  destruct c as [[] [] [] [] [] [] [] []]; vm_compute; reflexivity.
Qed.

Lemma lower_idempotent s : lower (lower s) = lower s.
Proof.
  unfold lower. rewrite <-list_fmap_compose.
  apply list_fmap_ext. intros _ c _. apply lower_chr_idempotent.
Qed.

Lemma blank_lower_fixed c :
  lower_chr (blank_non_token c) = blank_non_token c.
Proof.
  destruct c as [[] [] [] [] [] [] [] []]; vm_compute; reflexivity.
Qed.

(** [toks] gives the same tokens for a text and for its lower-cased
    form, and the tokens themselves are unchanged by lower-casing. *)
Theorem toks_ignore_case (s : str) :
  toks (Some (lower s)) = toks (Some s) ∧
  Forall (λ t, lower t = t) (toks (Some s)).
Proof.
  split.
  - unfold toks. simpl. by rewrite lower_idempotent.
  - rewrite toks_in_words. apply Forall_forall. intros t Ht.
    apply list_elem_of_filter in Ht as [_ Ht]. revert t Ht.
    apply Forall_forall.
    refine (Forall_impl (Forall (λ c, lower_chr c = c)) _ _ _ _).
    + apply split_from_Forall; [constructor|].
      apply Forall_map, Forall_true. intros c _. apply blank_lower_fixed.
    + intros t Ht. unfold lower. rewrite <-(list_fmap_id t) at 2.
      apply Forall_fmap_ext_1. eapply Forall_impl; [exact Ht|done].
Qed.

(** ** The entity tags *)

Lemma findall_from_elem fuel r prev s x :
  x ∈ findall_from fuel r prev s →
  ∃ k prev' n, match_here r prev' (drop k s) = Some n ∧
               x = take n (drop k s).
Proof.
  revert prev s. induction fuel as [|fuel IH]; intros prev s; simpl.
  { by intros ?%elem_of_nil. }
  destruct (match_here r prev s) as [[|n]|] eqn:Hm.
  - intros [->|Hx]%elem_of_cons.
    + exists 0, prev, 0. by rewrite drop_0.
    + destruct s as [|c s]; [by apply elem_of_nil in Hx|].
      destruct (IH _ _ Hx) as (k & prev' & n & ? & ?).
      by exists (S k), prev', n.
  - intros [->|Hx]%elem_of_cons.
    + exists 0, prev, (S n). by rewrite drop_0.
    + destruct (IH _ _ Hx) as (k & prev' & n' & Hk & ->).
      exists (S n + k), prev', n'. by rewrite <-drop_drop.
  - destruct s as [|c s]; [by intros ?%elem_of_nil|].
    intros Hx. destruct (IH _ _ Hx) as (k & prev' & n & ? & ?).
    by exists (S k), prev', n.
Qed.

Lemma match_here_bounded r prev s n :
  match_here r prev s = Some n → n ≤ length s.
Proof. apply (re_match_bounded r accept accept_bounded). Qed.

Lemma lit_match_min l prev s k n :
  lit_match l prev s k = Some n →
  ∃ prev', length l ≤ n ∧ take (length l) s = l ∧
           k prev' (drop (length l) s) = Some (n - length l).
Proof.
  revert prev s n. induction l as [|a l IH]; intros prev s n; simpl.
  - intros Hk. exists prev. rewrite Nat.sub_0_r. split_and!; [lia|done|done].
  - destruct s as [|c s]; [done|].
    destruct (chr_eqb a c) eqn:Hac; [|done].
    apply Ascii.eqb_eq in Hac as ->.
    destruct (lit_match l (Some c) s k) as [n'|] eqn:Hl; [|done].
    intros [= <-]. destruct (IH _ _ _ Hl) as (prev' & ? & Ht & Hk).
    exists prev'. simpl. rewrite Ht. split_and!; [lia|done|done].
Qed.

Lemma rep_match_min p lo hi prev s k n :
  rep_match p lo hi prev s k = Some n →
  ∃ prev' m, lo ≤ m ∧ m ≤ n ∧ k prev' (drop m s) = Some (n - m).
Proof.
  assert (∀ prev s n,
            (if lo =? 0 then k prev s else None) = Some n →
            ∃ prev' m, lo ≤ m ∧ m ≤ n ∧ k prev' (drop m s) = Some (n - m))
    as Hstop.
  { intros prev0 s0 n0. destruct lo; [|done]. simpl. intros Hk.
    exists prev0, 0. rewrite Nat.sub_0_r. split_and!; [lia|lia|done]. }
  revert lo hi prev n Hstop.
  induction s as [|c s IH]; intros lo hi prev n Hstop; simpl.
  - apply Hstop.
  - destruct (p c && hi_allows hi); [|apply Hstop].
    destruct (rep_match p (Nat.pred lo) (hi_pred hi) (Some c) s k)
      as [n'|] eqn:Hr; simpl; [|apply Hstop].
    intros [= <-]. apply IH in Hr as (prev' & m & ? & ? & Hk).
    + exists prev', (S m). simpl. split_and!; [lia|lia|done].
    + intros prev0 s0 n0. destruct (Nat.pred lo) eqn:Hp; [|done].
      simpl. intros Hk. exists prev0, 0. rewrite Nat.sub_0_r.
      split_and!; [lia|lia|done].
Qed.

Lemma re_match_min r prev s k n :
  re_match r prev s k = Some n →
  ∃ prev' m, min_len r ≤ m ∧ m ≤ n ∧ k prev' (drop m s) = Some (n - m).
Proof.
  revert prev s k n.
  induction r as [l|p|r1 IH1 r2 IH2|r1 IH1 r2 IH2|p lo hi|];
    intros prev s k n; simpl.
  - intros (prev' & ? & _ & ?)%lit_match_min. eauto.
  - destruct s as [|c s]; [done|]. destruct (p c); [|done].
    destruct (k (Some c) s) as [n'|] eqn:Hk; [|done]. intros [= <-].
    exists (Some c), 1. simpl. rewrite Nat.sub_0_r, drop_0.
    split_and!; [lia|lia|done].
  - intros (prev1 & m1 & ? & ? & H2)%IH1.
    apply IH2 in H2 as (prev2 & m2 & ? & ? & Hk).
    exists prev2, (m1 + m2). rewrite drop_drop in Hk.
    replace (n - (m1 + m2)) with (n - m1 - m2) by lia.
    split_and!; [lia|lia|done].
  - destruct (re_match r1 prev s k) as [n1|] eqn:H1.
    + intros [= <-]. apply IH1 in H1 as (prev' & m & ? & ? & ?).
      exists prev', m. split_and!; [lia|lia|done].
    + intros (prev' & m & ? & ? & ?)%IH2.
      exists prev', m. split_and!; [lia|lia|done].
  - apply rep_match_min.
  - destruct (at_word_boundary prev s); [|done]. intros Hk.
    exists prev, 0. rewrite Nat.sub_0_r. split_and!; [lia|lia|done].
Qed.

Lemma match_here_min r prev s n :
  match_here r prev s = Some n → min_len r ≤ n.
Proof. intros (prev' & m & ? & ? & _)%re_match_min. lia. Qed.

Lemma re_findall_pieces r s x :
  x ∈ re_findall r s →
  min_len r ≤ length x ∧ ∃ k, x = slice s k (k + length x).
Proof.
  intros (k & prev' & n & Hm & ->)%findall_from_elem.
  pose proof (match_here_bounded _ _ _ _ Hm).
  pose proof (match_here_min _ _ _ _ Hm).
  rewrite length_take. split; [lia|]. exists k. unfold slice.
  f_equal. lia.
Qed.

Lemma match_here_alt_lit l r prev s n :
  match_here (Alt (Lit l) r) prev s = Some n →
  take n s = l ∨ match_here r prev s = Some n.
Proof.
  unfold match_here. simpl.
  destruct (lit_match l prev s accept) as [n'|] eqn:Hl; [|by right].
  intros [= <-]. left.
  apply lit_match_min in Hl as (prev' & ? & Ht & Hk).
  unfold accept in Hk. injection Hk as Hz.
  by replace n' with (length l) by lia.
Qed.

Lemma match_here_lit l prev s n :
  match_here (Lit l) prev s = Some n → take n s = l.
Proof.
  unfold match_here. simpl.
  intros (prev' & ? & Ht & Hk)%lit_match_min.
  unfold accept in Hk. injection Hk as Hz.
  by replace n with (length l) by lia.
Qed.

Lemma re_findall_factions s x :
  x ∈ re_findall FACTION_PAT s → x ∈ FACTION_NAMES.
Proof.
  intros (k & prev' & n & Hm & ->)%findall_from_elem.
  unfold FACTION_PAT, FACTION_NAMES in *.
  repeat (apply match_here_alt_lit in Hm; destruct Hm as [->|Hm];
          [by repeat constructor|]).
  apply match_here_lit in Hm as ->. by repeat constructor.
Qed.

(** Every faction tag of a chunk is one of the seven names of
    [FACTION_PAT]. *)
Theorem faction_tags_are_known_names
    (o : SetOrder) (pages : list (option str)) :
  ∃ chunks index,
    main o pages = Some (chunks, index) ∧
    Forall (λ c, Forall (λ x, x ∈ FACTION_NAMES) (c_factions c)) chunks.
Proof.
  destruct (main_windows o pages) as (ws & _ & Hmain).
  eexists _, _. split; [exact Hmain|].
  apply Forall_lookup. intros k c (w & _ & ->)%imap_tag_lookup. simpl.
  apply Forall_forall. intros x Hx%set_list_elem.
  by apply re_findall_factions in Hx.
Qed.

(** Every tag of a chunk is a piece [text[k:k+len]] of the chunk text;
    a system tag has at least 3 characters, a faction tag at least 6 and
    a date tag at least 10. *)
Theorem entity_tags_are_pieces_of_the_text
    (o : SetOrder) (pages : list (option str)) :
  ∃ chunks index,
    main o pages = Some (chunks, index) ∧
    Forall (λ c,
      Forall (λ x, 3 ≤ length x ∧
                   ∃ k, x = slice (c_text c) k (k + length x))
        (c_systems c) ∧
      Forall (λ x, 6 ≤ length x ∧
                   ∃ k, x = slice (c_text c) k (k + length x))
        (c_factions c) ∧
      Forall (λ x, 10 ≤ length x ∧
                   ∃ k, x = slice (c_text c) k (k + length x))
        (c_dates c)) chunks.
Proof.
  destruct (main_windows o pages) as (ws & _ & Hmain).
  eexists _, _. split; [exact Hmain|].
  apply Forall_lookup. intros k c (w & _ & ->)%imap_tag_lookup. simpl.
  split_and!; apply Forall_forall; intros x Hx%set_list_elem;
    by apply re_findall_pieces in Hx.
Qed.

(** ** What [toks] returns *)














(** ** Runs over a document put together from two, with any set orders *)

Lemma imap_tag_equiv o1 o2 ws :
  Forall2 chunk_equiv (imap (tag o1) ws) (imap (tag o2) ws).
Proof.
  apply Forall2_same_length_lookup_2; [by rewrite !length_imap|].
  intros k c1 c2 (w1 & Hw1 & ->)%imap_tag_lookup
    (w2 & Hw2 & ->)%imap_tag_lookup.
  assert (w2 = w1) as -> by congruence. apply tag_equiv.
Qed.

Lemma imap_tag_appended o ws1 ws2 dp :
  imap (tag o) (ws1 ++ map (w_shift dp) ws2)
  = imap (tag o) ws1
    ++ map (shift_chunk (length ws1) dp) (imap (tag o) ws2).
Proof.
  rewrite imap_app. f_equal. rewrite imap_fmap, fmap_imap.
  by apply imap_ext.
Qed.

Lemma shift_chunk_equiv dn dp c1 c2 :
  chunk_equiv c1 c2 →
  chunk_equiv (shift_chunk dn dp c1) (shift_chunk dn dp c2).
Proof.
  unfold chunk_equiv. simpl. intros (-> & -> & -> & ? & ? & ?). done.
Qed.

(** The run over the pages of two documents put one behind the other,
    whatever the set orders of the three runs: its chunks are those of
    the first run followed by those of the second, with ids moved up by
    the number of chunks and page numbers by the number of pages of the
    first, up to the order inside the entity lists; N and every document
    frequency are the sums of those of the two runs. When the sets of
    the three runs iterate in the same order the chunk lists are equal. *)
Theorem main_of_appended_pages
    (o1 o2 o : SetOrder) (pages1 pages2 : list (option str)) :
  ∃ cs1 i1 cs2 i2 cs i,
    main o1 pages1 = Some (cs1, i1) ∧
    main o2 pages2 = Some (cs2, i2) ∧
    main o (pages1 ++ pages2) = Some (cs, i) ∧
    Forall2 chunk_equiv cs
      (cs1 ++ map (shift_chunk (length cs1) (length pages1)) cs2) ∧
    N i = N i1 + N i2 ∧
    (∀ w, dict_get (build_df o cs) w
          = freq_entry (doc_freq cs1 w + doc_freq cs2 w)) ∧
    ((∀ l, set_list o1 l = set_list o l) →
     (∀ l, set_list o2 l = set_list o l) →
     cs = cs1 ++ map (shift_chunk (length cs1) (length pages1)) cs2).
Proof.
  destruct (main_windows o1 pages1) as (ws1 & Hws1 & Hmain1).
  destruct (main_windows o2 pages2) as (ws2 & Hws2 & Hmain2).
  destruct (main_windows o (pages1 ++ pages2)) as (ws & Hws & Hmain).
  rewrite page_windows_app, Hws1 in Hws. simpl in Hws.
  rewrite <-(Nat.add_0_r (length pages1)), page_windows_shift, Hws2 in Hws.
  simpl in Hws. injection Hws as <-.
  rewrite imap_tag_appended in Hmain.
  eexists _, _, _, _, _, _.
  split; [exact Hmain1|]. split; [exact Hmain2|]. split; [exact Hmain|].
  rewrite !length_imap. split_and!.
  - apply Forall2_app; [apply imap_tag_equiv|].
    apply Forall2_fmap, Forall2_impl with chunk_equiv;
      [apply imap_tag_equiv|].
    intros c1 c2. apply shift_chunk_equiv.
  - simpl. by rewrite length_app, length_map, !length_imap.
  - intros w. rewrite build_df_get, doc_freq_app.
    assert (doc_freq (imap (tag o) ws1) w = doc_freq (imap (tag o1) ws1) w)
      as ->.
    { apply doc_freq_texts. by rewrite !(imap_tag_texts _ 0). }
    assert (doc_freq
              (map (shift_chunk (length ws1) (length pages1))
                 (imap (tag o) ws2)) w
            = doc_freq (imap (tag o2) ws2) w) as ->; [|done].
    apply doc_freq_texts. rewrite <-list_fmap_compose.
    change (c_text ∘ shift_chunk (length ws1) (length pages1)) with c_text.
    by rewrite !(imap_tag_texts _ 0).
  - intros H1 H2. f_equal.
    + apply imap_ext. intros k w _. symmetry. by apply tag_ext.
    + f_equal. apply imap_ext. intros k w _. symmetry. by apply tag_ext.
Qed.
